(** * Evacuation planner: BFS path finder and hazard state

    A shallow embedding of the core of the evacuation planner
    (the application script and [buildingGraph.js]):

    - [edgeKey], [bfsEvacuate], [findAlternativePaths]  (path finder);
    - [applyHazard], [removeHazard], [toggleHazard], [resetAll],
      [applyPreset], [_recalculate]                      (hazard manager).

    Node identifiers are JS strings, modelled as [string].  JS [Set]s of
    identifiers are [gset string], objects used as dictionaries
    ([ADJACENCY], [NODES], [state.hazardTypes], [HAZARD_PRESETS]) are
    [gmap string _], arrays are lists.

    The hazard manager is given twice.  [HazardManager] has the five
    operations as functions on the state, with every property read an
    own-key lookup: this is what the code does for identifiers that are
    not property names of [Object.prototype].  [Js] has the same five
    operations for every string, with the inherited properties of
    [state.hazardTypes] and [HAZARD_PRESETS] and the [TypeError] they lead
    to; [runOperation_ordinary] relates the two.

    DOM rendering and toasts only write to the page; they are left out,
    and so is the floor filter.  Of the timer only the two fields that
    [resetAll] writes are kept.  Further parts of the script are modelled
    after the hazard manager: what the page shows for a state
    ([getNodeStatus], the status of [renderRoutePanel]), the graph builder
    ([onBuilderNodeClick], [runBuilderBFS]) and the cap of the audit log
    ([logAudit], on the list of its entries). *)

From Stdlib Require Import Ascii.
From stdpp Require Import gmap strings list fin_maps fin_sets.

(** ** Graph store: the data of [buildingGraph.js] *)

Module GraphStore.

(** The five floor codes and the five node types of the data set. *)
Inductive Floor := B1 | GF | F1 | F2 | F3.
Inductive NodeType := room | corridor | stair | control | exit.

(** A value of [NODES]: [{ label, floor, type }]. *)
Record Node := mkNode { label : string; floor : Floor; type : NodeType }.

(** A value of [HAZARD_PRESETS]: [{ nodes, edges, description }]. *)
Record Preset := mkPreset {
  nodes : list string;
  edges : list (string * string);
  description : string
}.

End GraphStore.
Export GraphStore.

(** ** Edge keys *)

Module EdgeKey.

(** [[a, b].sort()] with the default comparator: the two strings are
    compared, and since the sort is stable they are swapped only when the
    second is strictly smaller than the first.  [String.ltb] is the
    lexicographic order on character codes, which is the order JS uses on
    the ASCII identifiers of the data set. *)
Definition sort_pair (a b : string) : list string :=
  if String.ltb b a then [b; a] else [a; b].

(** [function edgeKey(a, b) { return [a, b].sort().join('::'); }] *)
Definition edgeKey (a b : string) : string :=
  String.concat "::" (sort_pair a b).

End EdgeKey.
Export EdgeKey.

(** ** Breadth-first path finder *)

Module PathFinder.

Section Bfs.

(** The parameters of [bfsEvacuate] other than the unused [graph]. *)
Context (adjacency : gmap string (list string)).
Context (exits : gset string).
Context (blockedNodes blockedEdges : gset string).

(** [adjacency[current] || []] *)
Definition neighborsOf (current : string) : list string :=
  default [] (adjacency !! current).

(** The [for (const neighbor of neighbors)] loop of one iteration: it
    threads the [visited] set and the [queue], pushing [[...path, neighbor]]
    for every neighbour that passes the three [continue] tests. *)
Fixpoint expand (path : list string) (current : string)
    (neighbors : list string) (visited : gset string)
    (queue : list (list string)) : gset string * list (list string) :=
  match neighbors with
  | [] => (visited, queue)
  | neighbor :: rest =>
      if decide (neighbor ∈ visited) then
        expand path current rest visited queue
      else if decide (neighbor ∈ blockedNodes) then
        expand path current rest visited queue
      else if decide (edgeKey current neighbor ∈ blockedEdges) then
        expand path current rest visited queue
      else
        expand path current rest ({[neighbor]} ∪ visited)
               (queue ++ [path ++ [neighbor]])
  end.

(** The [while (queue.length > 0)] loop.  [fuel] bounds the number of
    iterations; the outer [None] means the bound was hit, [Some None] is
    the [return null] after the loop and [Some (Some path)] the
    [return path] inside it.  The queue only ever holds non-empty paths,
    so the [last path = None] branch is never taken (there JS would read
    [undefined], find it in no set and go on with the rest of the queue). *)
Fixpoint bfs_loop (fuel : nat) (queue : list (list string))
    (visited : gset string) : option (option (list string)) :=
  match fuel with
  | 0 => None
  | S fuel' =>
      match queue with
      | [] => Some None
      | path :: queue' =>
          match last path with
          | None => bfs_loop fuel' queue' visited
          | Some current =>
              if decide (current ∈ exits) then Some (Some path)
              else
                let '(visited', queue'') :=
                  expand path current (neighborsOf current) visited queue' in
                bfs_loop fuel' queue'' visited'
          end
      end
  end.

(** Every identifier that occurs in some neighbour list. *)
Definition listedNodes : gset string :=
  ⋃ ((λ kv, list_to_set kv.2) <$> map_to_list adjacency).

(** A bound on the number of iterations of the loop: one per path ever
    enqueued (the start and at most one per listed node), and one more to
    observe the empty queue. *)
Definition bfs_fuel : nat := 2 + size listedNodes.

End Bfs.

(** [function bfsEvacuate(graph, adjacency, exits, start, blockedNodes,
    blockedEdges)].  [graph] is never read ([NODES] or [null] at the call
    sites).  [None] is the JS [null].  The loop is run with [bfs_fuel]
    iterations, which [bfs_loop_terminates] shows is always enough. *)
Definition bfsEvacuate (graph : option (gmap string Node))
    (adjacency : gmap string (list string)) (exits : gset string)
    (start : string) (blockedNodes blockedEdges : gset string)
    : option (list string) :=
  if decide (start ∈ blockedNodes) then None
  else
    match bfs_loop adjacency exits blockedNodes blockedEdges
            (bfs_fuel adjacency) [[start]] {[start]} with
    | Some result => result
    | None => None
    end.

(** [path.join('->')], the key of a path in [usedPaths]. *)
Definition joinPath (path : list string) : string := String.concat "->" path.

(** The nodes [prevPath[j]] for [1 <= j < prevPath.length - 1]. *)
Definition interiorNodes (prevPath : list string) : list string :=
  take (length prevPath - 2) (drop 1 prevPath).

Section Alternatives.

Context (adjacency : gmap string (list string)).
Context (exits : gset string) (start : string).
Context (blockedNodes blockedEdges : gset string).

(** The inner [for (let j = 1; ...)] loop, over the interior nodes still
    to try.  It yields the first [alt] that is a path and whose key is not
    in [usedPaths] (the [break] with [found = true]), or [None] when the
    loop runs out ([found] stays [false]). *)
Fixpoint tryInterior (interior : list string) (usedPaths : gset string)
    : option (list string) :=
  match interior with
  | [] => None
  | node :: rest =>
      let extraBlocked := blockedNodes ∪ {[node]} in
      match bfsEvacuate None adjacency exits start extraBlocked blockedEdges with
      | Some alt =>
          if decide (joinPath alt ∈ usedPaths) then tryInterior rest usedPaths
          else Some alt
      | None => tryInterior rest usedPaths
      end
  end.

(** The outer [for (let i = 1; i < count; i++)] loop; [iters] is the
    number of values of [i] left.  [paths] has [i] elements whenever the
    body runs, so [paths[i - 1]] is defined and the [None] branch is never
    taken. *)
Fixpoint altLoop (iters i : nat) (paths : list (list string))
    (usedPaths : gset string) : list (list string) :=
  match iters with
  | 0 => paths
  | S iters' =>
      match paths !! (i - 1) with
      | None => paths
      | Some prevPath =>
          match tryInterior (interiorNodes prevPath) usedPaths with
          | Some alt =>
              altLoop iters' (S i) (paths ++ [alt]) ({[joinPath alt]} ∪ usedPaths)
          | None => paths
          end
      end
  end.

(** [function findAlternativePaths(adjacency, exits, start, blockedNodes,
    blockedEdges, count = 3)].  [count] is a natural number; the one call
    site passes [3]. *)
Definition findAlternativePaths (count : nat) : list (list string) :=
  match bfsEvacuate None adjacency exits start blockedNodes blockedEdges with
  | None => []
  | Some optimal => altLoop (count - 1) 1 [optimal] {[joinPath optimal]}
  end.

End Alternatives.

End PathFinder.
Export PathFinder.

(** ** Routes: what the path finder is meant to return *)

Module Route.

Section Route.

Context (adjacency : gmap string (list string)).
Context (exits : gset string) (start : string).
Context (blockedNodes blockedEdges : gset string).

(** One traversable step: [v] is listed as a neighbour of [u], [v] is not
    blocked and the canonical key of the edge is not blocked. *)
Definition step (u v : string) : Prop :=
  v ∈ neighborsOf adjacency u ∧ (v ∉ blockedNodes) ∧
  (edgeKey u v ∉ blockedEdges).

(** Every consecutive pair of the sequence is a traversable step. *)
Fixpoint traversable (p : list string) : Prop :=
  match p with
  | u :: rest =>
      match rest with
      | v :: _ => step u v ∧ traversable rest
      | [] => True
      end
  | [] => True
  end.

(** The last node of the sequence is an exit. *)
Definition endsInExit (p : list string) : Prop :=
  ∃ e, last p = Some e ∧ e ∈ exits.

(** A valid route: it begins at the unblocked start, ends in an exit and
    every step is traversable.  Nodes may repeat. *)
Definition validRoute (p : list string) : Prop :=
  head p = Some start ∧ (start ∉ blockedNodes) ∧ traversable p ∧
  endsInExit p.

(** A viable route is a valid route that is a simple path. *)
Definition viableRoute (p : list string) : Prop :=
  validRoute p ∧ NoDup p.

#[global] Instance step_dec u v : Decision (step u v).
Proof. unfold step. apply _. Defined.

#[global] Instance traversable_dec p : Decision (traversable p).
Proof. induction p as [|u [|v r] IH]; simpl; apply _. Defined.

#[global] Instance endsInExit_dec p : Decision (endsInExit p).
Proof.
  unfold endsInExit. destruct (last p) as [e|].
  - destruct (decide (e ∈ exits)) as [He|He].
    + left. by exists e.
    + right. intros (e' & Heq & He'). by simplify_eq.
  - right. intros (e' & Heq & _). discriminate.
Defined.

#[global] Instance validRoute_dec p : Decision (validRoute p).
Proof. unfold validRoute. apply _. Defined.

#[global] Instance viableRoute_dec p : Decision (viableRoute p).
Proof. unfold viableRoute. apply _. Defined.

(** [walk k v]: [v] is reached from the start by [k] traversable steps. *)
Inductive walk : nat → string → Prop :=
  | walk_start : start ∉ blockedNodes → walk 0 start
  | walk_step k u v : walk k u → step u v → walk (S k) v.

(** The number of edges of a route. *)
Definition edgeCount (p : list string) : nat := length p - 1.

(** A path as the search keeps them in its queue: it begins at the
    start, every step is traversable, no node repeats and all its nodes
    are marked visited. *)
Definition goodPath (visited : gset string) (p : list string) : Prop :=
  head p = Some start ∧ traversable p ∧ NoDup p ∧ ∀ u, u ∈ p → u ∈ visited.

(** The invariant of the [while] loop.  The queue is [front ++ back]:
    [front] holds paths of [d] edges, [back] paths of [d + 1] edges.
    [closed] is the set of nodes already dequeued; none is an exit and all
    their traversable neighbours are visited.  Every node within [d - 1]
    steps of the start is closed, and every node at [d] steps is closed or
    ends a path of [front]. *)
Record bfsInv (d : nat) (closed : gset string)
    (front back : list (list string)) (visited : gset string) : Prop := {
  inv_start : start ∉ blockedNodes;
  inv_front : ∀ p, p ∈ front → goodPath visited p ∧ length p = S d;
  inv_back : ∀ p, p ∈ back → goodPath visited p ∧ length p = S (S d);
  inv_visited : ∀ v, v ∈ visited →
    v ∈ closed ∨ ∃ p, p ∈ front ++ back ∧ last p = Some v;
  inv_closed : ∀ u, u ∈ closed →
    (u ∉ exits) ∧ ∀ v, step u v → v ∈ visited;
  inv_near : ∀ k v, walk k v → k < d → v ∈ closed;
  inv_level : ∀ v, walk d v →
    v ∈ closed ∨ ∃ p, p ∈ front ∧ last p = Some v
}.

End Route.

End Route.
Export Route.

(** ** Hazard state and its operations *)

Module HazardManager.

(** The fields of the global [state] object that the hazard operations
    read or write. *)
Record State := mkState {
  hazardNodes : gset string;
  hazardEdges : gset string;
  hazardTypes : gmap string string;
  selectedHazard : string;
  currentPath : option (list string);
  evacuationFailed : bool;
  timerSeconds : nat;
  timerRunning : bool
}.

(** The [state] literal at the top of the script. *)
Definition initialState : State :=
  {| hazardNodes := ∅; hazardEdges := ∅; hazardTypes := ∅;
     selectedHazard := "fire"; currentPath := None;
     evacuationFailed := false; timerSeconds := 0; timerRunning := false |}.

Definition setHazardNodes (s : gset string) (st : State) : State :=
  {| hazardNodes := s; hazardEdges := hazardEdges st;
     hazardTypes := hazardTypes st; selectedHazard := selectedHazard st;
     currentPath := currentPath st; evacuationFailed := evacuationFailed st;
     timerSeconds := timerSeconds st; timerRunning := timerRunning st |}.

Definition setHazardEdges (s : gset string) (st : State) : State :=
  {| hazardNodes := hazardNodes st; hazardEdges := s;
     hazardTypes := hazardTypes st; selectedHazard := selectedHazard st;
     currentPath := currentPath st; evacuationFailed := evacuationFailed st;
     timerSeconds := timerSeconds st; timerRunning := timerRunning st |}.

Definition setHazardTypes (m : gmap string string) (st : State) : State :=
  {| hazardNodes := hazardNodes st; hazardEdges := hazardEdges st;
     hazardTypes := m; selectedHazard := selectedHazard st;
     currentPath := currentPath st; evacuationFailed := evacuationFailed st;
     timerSeconds := timerSeconds st; timerRunning := timerRunning st |}.

Definition setSelectedHazard (kind : string) (st : State) : State :=
  {| hazardNodes := hazardNodes st; hazardEdges := hazardEdges st;
     hazardTypes := hazardTypes st; selectedHazard := kind;
     currentPath := currentPath st; evacuationFailed := evacuationFailed st;
     timerSeconds := timerSeconds st; timerRunning := timerRunning st |}.

Definition setRoute (path : option (list string)) (failed : bool)
    (st : State) : State :=
  {| hazardNodes := hazardNodes st; hazardEdges := hazardEdges st;
     hazardTypes := hazardTypes st; selectedHazard := selectedHazard st;
     currentPath := path; evacuationFailed := failed;
     timerSeconds := timerSeconds st; timerRunning := timerRunning st |}.

Definition setTimer (seconds : nat) (running : bool) (st : State) : State :=
  {| hazardNodes := hazardNodes st; hazardEdges := hazardEdges st;
     hazardTypes := hazardTypes st; selectedHazard := selectedHazard st;
     currentPath := currentPath st; evacuationFailed := evacuationFailed st;
     timerSeconds := seconds; timerRunning := running |}.

(** The three components the specification calls the Hazard State. *)
Definition hazardStateOf (st : State)
    : gset string * gset string * gmap string string :=
  (hazardNodes st, hazardEdges st, hazardTypes st).

Section Manager.

(** The globals of [buildingGraph.js]. *)
Context (NODES : gmap string Node).
Context (ADJACENCY : gmap string (list string)).
Context (EXITS : gset string).
Context (START_NODE : string).
Context (HAZARD_PRESETS : gmap string Preset).

(** [NODES[nodeId]?.label || nodeId]: the label shown for a node; an
    unknown id, or an empty label, falls back to the id itself. *)
Definition displayLabel (nodeId : string) : string :=
  match NODES !! nodeId with
  | Some node => if decide (label node = "") then nodeId else label node
  | None => nodeId
  end.

(** [function _recalculate()], without the rendering. *)
Definition _recalculate (st : State) : State :=
  let path := bfsEvacuate (Some NODES) ADJACENCY EXITS START_NODE
                (hazardNodes st) (hazardEdges st) in
  setRoute path (if path is Some _ then false else true) st.

(** [function applyHazard(nodeId, type)], for a [nodeId] other than
    [__proto__] (see [Js.applyHazard]). *)
Definition applyHazard (nodeId type : string) (st : State) : State :=
  let st := setHazardNodes ({[nodeId]} ∪ hazardNodes st) st in
  let st := setHazardTypes (<[nodeId := type]> (hazardTypes st)) st in
  _recalculate st.

(** [function removeHazard(nodeId)], for a [nodeId] that has a kind
    recorded or is not a property name of [Object.prototype] (see
    [Js.removeHazard]). *)
Definition removeHazard (nodeId : string) (st : State) : State :=
  let st := setHazardNodes (hazardNodes st ∖ {[nodeId]}) st in
  let st := setHazardTypes (delete nodeId (hazardTypes st)) st in
  _recalculate st.

(** [function toggleHazard(nodeId)], with the same proviso as the two
    functions it calls. *)
Definition toggleHazard (nodeId : string) (st : State) : State :=
  if decide (nodeId = START_NODE) then st
  else if decide (nodeId ∈ hazardNodes st) then removeHazard nodeId st
  else applyHazard nodeId (selectedHazard st) st.

(** [function resetAll()] *)
Definition resetAll (st : State) : State :=
  let st := setHazardNodes ∅ st in
  let st := setHazardEdges ∅ st in
  let st := setHazardTypes ∅ st in
  let st := setTimer 0 false st in
  _recalculate st.

(** The body of [preset.nodes.forEach], for an [n] other than
    [__proto__]. *)
Definition presetNode (st : State) (n : string) : State :=
  let st := setHazardNodes ({[n]} ∪ hazardNodes st) st in
  setHazardTypes (<[n := "fire"]> (hazardTypes st)) st.

(** The body of [preset.edges.forEach]. *)
Definition presetEdge (st : State) (e : string * string) : State :=
  setHazardEdges ({[edgeKey e.1 e.2]} ∪ hazardEdges st) st.

(** [function applyPreset(presetName)], for a [presetName] that is a
    preset or is not a property name of [Object.prototype] (see
    [Js.applyPreset]). *)
Definition applyPreset (presetName : string) (st : State) : State :=
  match HAZARD_PRESETS !! presetName with
  | None => st
  | Some preset =>
      let st := resetAll st in
      let st := foldl presetNode st (nodes preset) in
      let st := foldl presetEdge st (edges preset) in
      _recalculate st
  end.

(** What the page lets the user do to the hazard state: click a node
    ([handleNodeClick] calls [toggleHazard]), pick a hazard kind in the
    selector, press reset, load a preset. *)
Inductive Action :=
  | Toggle (nodeId : string)
  | SelectHazard (kind : string)
  | Reset
  | LoadPreset (presetName : string).

Definition perform (st : State) (a : Action) : State :=
  match a with
  | Toggle nodeId => toggleHazard nodeId st
  | SelectHazard kind => setSelectedHazard kind st
  | Reset => resetAll st
  | LoadPreset presetName => applyPreset presetName st
  end.

(** The actions of the toggle interface: everything but loading a
    preset, which writes [hazardNodes] directly. *)
Definition isToggleAction (a : Action) : bool :=
  match a with
  | Toggle _ | SelectHazard _ | Reset => true
  | LoadPreset _ => false
  end.

(** The five operations of the hazard state manager, as data. *)
Inductive Operation :=
  | OpApply (nodeId type : string)
  | OpRemove (nodeId : string)
  | OpToggle (nodeId : string)
  | OpReset
  | OpPreset (presetName : string).

Definition runOperation (op : Operation) (st : State) : State :=
  match op with
  | OpApply nodeId type => applyHazard nodeId type st
  | OpRemove nodeId => removeHazard nodeId st
  | OpToggle nodeId => toggleHazard nodeId st
  | OpReset => resetAll st
  | OpPreset presetName => applyPreset presetName st
  end.


(** The route the path finder returns for the hazards of a state. *)
Definition routeOf (st : State) : option (list string) :=
  bfsEvacuate (Some NODES) ADJACENCY EXITS START_NODE
    (hazardNodes st) (hazardEdges st).

(** An identifier that occurs nowhere in the graph store. *)
Definition absentFromStore (nodeId : string) : Prop :=
  NODES !! nodeId = None ∧ ADJACENCY !! nodeId = None ∧
  (nodeId ∉ listedNodes ADJACENCY) ∧ (nodeId ∉ EXITS) ∧
  nodeId ≠ START_NODE.

#[global] Instance absentFromStore_dec nodeId :
  Decision (absentFromStore nodeId).
Proof. unfold absentFromStore. apply _. Defined.

End Manager.

(** The invariant of the hazard state: the keys of [hazardTypes] are
    exactly the members of [hazardNodes]. *)
Definition kindsMatchNodes (st : State) : Prop :=
  dom (hazardTypes st) = hazardNodes st.

End HazardManager.
Export HazardManager.

(** ** The building of [buildingGraph.js] *)

Module Building.

Definition NODES : gmap string Node :=
  list_to_map [
    ("Parking", mkNode "Parking" B1 room);
    ("Electrical", mkNode "Electrical Room" B1 room);
    ("Generator", mkNode "Generator Room" B1 room);
    ("StairB", mkNode "Stairwell B" B1 stair);
    ("EmergencyExit", mkNode "Emergency Exit" B1 exit);
    ("Entrance", mkNode "Entrance" GF room);
    ("Reception", mkNode "Reception" GF room);
    ("Hall", mkNode "Main Hall" GF corridor);
    ("Control", mkNode "Control Room" GF control);
    ("KitchenG", mkNode "Kitchen (GF)" GF room);
    ("WashG", mkNode "Washroom (GF)" GF room);
    ("StairG", mkNode "Stairwell G" GF stair);
    ("ExitA", mkNode "Exit A" GF exit);
    ("ExitB", mkNode "Exit B" GF exit);
    ("Lobby1", mkNode "Lobby 1" F1 corridor);
    ("R101", mkNode "Room 101" F1 room);
    ("R102", mkNode "Room 102" F1 room);
    ("Office", mkNode "Office" F1 room);
    ("Wash1", mkNode "Washroom (F1)" F1 room);
    ("Storage", mkNode "Storage" F1 room);
    ("Stair1", mkNode "Stairwell 1" F1 stair);
    ("Lobby2", mkNode "Lobby 2" F2 corridor);
    ("R201", mkNode "Room 201" F2 room);
    ("R202", mkNode "Room 202" F2 room);
    ("Kitchen2", mkNode "Kitchen (F2)" F2 room);
    ("Wash2", mkNode "Washroom (F2)" F2 room);
    ("Server", mkNode "Server Room" F2 room);
    ("Stair2", mkNode "Stairwell 2" F2 stair);
    ("Lobby3", mkNode "Lobby 3" F3 corridor);
    ("R301", mkNode "Room 301" F3 room);
    ("R302", mkNode "Room 302" F3 room);
    ("R303", mkNode "Room 303" F3 room);
    ("Wash3", mkNode "Washroom (F3)" F3 room);
    ("Balcony3", mkNode "Balcony" F3 room);
    ("Stair3", mkNode "Stairwell 3" F3 stair)
  ].

Definition ADJACENCY : gmap string (list string) :=
  list_to_map [
    ("Parking", ["Electrical"; "Generator"; "StairB"; "EmergencyExit"]);
    ("Electrical", ["Parking"]);
    ("Generator", ["Parking"]);
    ("StairB", ["Parking"; "StairG"]);
    ("EmergencyExit", ["Parking"]);
    ("Entrance", ["Reception"]);
    ("Reception", ["Entrance"; "Hall"]);
    ("Hall", ["Reception"; "Control"; "KitchenG"; "WashG"; "StairG";
              "ExitA"; "ExitB"]);
    ("Control", ["Hall"]);
    ("KitchenG", ["Hall"]);
    ("WashG", ["Hall"]);
    ("StairG", ["Hall"; "Stair1"; "StairB"]);
    ("ExitA", ["Hall"]);
    ("ExitB", ["Hall"]);
    ("Lobby1", ["R101"; "R102"; "Office"; "Wash1"; "Storage"; "Stair1"]);
    ("R101", ["Lobby1"]);
    ("R102", ["Lobby1"]);
    ("Office", ["Lobby1"]);
    ("Wash1", ["Lobby1"]);
    ("Storage", ["Lobby1"]);
    ("Stair1", ["Lobby1"; "StairG"; "Stair2"]);
    ("Lobby2", ["R201"; "R202"; "Kitchen2"; "Wash2"; "Server"; "Stair2"]);
    ("R201", ["Lobby2"]);
    ("R202", ["Lobby2"]);
    ("Kitchen2", ["Lobby2"]);
    ("Wash2", ["Lobby2"]);
    ("Server", ["Lobby2"]);
    ("Stair2", ["Lobby2"; "Stair1"; "Stair3"]);
    ("Lobby3", ["R301"; "R302"; "R303"; "Wash3"; "Balcony3"; "Stair3"]);
    ("R301", ["Lobby3"]);
    ("R302", ["Lobby3"]);
    ("R303", ["Lobby3"]);
    ("Wash3", ["Lobby3"]);
    ("Balcony3", ["Lobby3"]);
    ("Stair3", ["Lobby3"; "Stair2"])
  ].

Definition EXITS : gset string := {[ "ExitA"; "ExitB"; "EmergencyExit" ]}.

Definition START_NODE : string := "Control".

Definition HAZARD_PRESETS : gmap string Preset :=
  list_to_map [
    ("Ground Floor Fire",
     mkPreset ["Hall"; "KitchenG"] []
       "Fire in Main Hall and Kitchen blocks main ground floor corridor");
    ("Exit A Blocked",
     mkPreset ["ExitA"] []
       "Exit A is sealed — forces route to alternate exit");
    ("Full Lockdown",
     mkPreset ["ExitA"; "ExitB"; "EmergencyExit"] []
       "All exits blocked — evacuation impossible");
    ("Stairwell Fire",
     mkPreset ["StairG"; "Stair1"] []
       "Stairwells G and 1 on fire — upper floors isolated");
    ("Smoke on F2",
     mkPreset ["Lobby2"; "Server"; "Kitchen2"] []
       "Smoke fills Floor 2 corridor and adjacent rooms")
  ].

End Building.

(** ** Small graphs used in the examples *)

Module Samples.

(** The line [S - A - B] with exit [B]. *)
Definition lineAdj : gmap string (list string) :=
  {[ "S" := ["A"]; "A" := ["S"; "B"]; "B" := ["A"] ]}.

(** The diamond [S - {A, B} - Exit]. *)
Definition diamondAdj : gmap string (list string) :=
  {[ "S" := ["A"; "B"]; "A" := ["S"; "Exit"]; "B" := ["S"; "Exit"];
     "Exit" := ["A"; "B"] ]}.

(** A session at the page: some clicks, among them on the control room. *)
Definition clicks : list Action :=
  [Toggle "Hall"; Toggle "Control"; SelectHazard "smoke"; Toggle "ExitA";
   Toggle "Hall"; Reset; Toggle "Control"; Toggle "StairG"].

End Samples.

(** ** Further notions about keys and hazards *)

Module Keys.

(** The string contains the character [:], the one the separator of
    [edgeKey] is made of. *)
Fixpoint hasColon (s : string) : bool :=
  match s with
  | EmptyString => false
  | String c s' => if Ascii.eqb c ":"%char then true else hasColon s'
  end.

(** The keys [edgeKey(u, v)] of all pairs [u], [v] with [v] listed as a
    neighbour of [u]: the only keys the search ever looks up in
    [blockedEdges]. *)
Definition listedEdgeKeys (adjacency : gmap string (list string))
    : gset string :=
  ⋃ ((λ kv, list_to_set (edgeKey kv.1 <$> kv.2)) <$> map_to_list adjacency).

End Keys.
Export Keys.


(** ** Relations between consecutive alternative routes *)

Module Alternatives.

(** The route [p'] leaves out at least one interior node of [p]. *)
Definition avoidsInteriorOf (p p' : list string) : Prop :=
  ∃ node, node ∈ interiorNodes p ∧ node ∉ p'.

#[global] Instance avoidsInteriorOf_dec p p' : Decision (avoidsInteriorOf p p').
Proof.
  unfold avoidsInteriorOf.
  destruct (decide (Exists (λ node, node ∉ p') (interiorNodes p))) as [H|H].
  - left. apply Exists_exists in H as (node & ? & ?). by exists node.
  - right. intros (node & ? & ?). apply H, Exists_exists. by exists node.
Defined.

End Alternatives.
Export Alternatives.


(** ** What the page shows: node status and route status *)

Module Presenter.

Section Presenter.

Context (NODES : gmap string Node).
Context (ADJACENCY : gmap string (list string)).
Context (EXITS : gset string).
Context (START_NODE : string).
Context (HAZARD_PRESETS : gmap string Preset).

(** [function getNodeStatus(nodeId)] *)
Definition getNodeStatus (nodeId : string) (st : State) : string :=
  if decide (nodeId = START_NODE) then "start"
  else if decide (nodeId ∈ EXITS ∧ nodeId ∈ hazardNodes st) then "exit-blocked"
  else if decide (nodeId ∈ EXITS) then "exit"
  else if decide (nodeId ∈ hazardNodes st) then "hazard"
  else if (if currentPath st is Some path then bool_decide (nodeId ∈ path)
           else false)
       then "path"
  else "safe".

(** The message and level that [renderRoutePanel] hands to
    [updateStatusBar] in each of its three branches.  The exit label is
    [NODES[exitNode]?.label || exitNode] for the last node of the path
    (for an empty path, which never occurs, JS would print
    [undefined]). *)
Definition routeStatus (st : State) : string * string :=
  if evacuationFailed st then ("FAILED", "danger")
  else
    match currentPath st with
    | None => ("CLEAR", "safe")
    | Some path =>
        ("EVACUATE → " +:+ displayLabel NODES (default "undefined" (last path)),
         "safe")
    end.

(** [const hops = path.length - 1], the step count shown with the route. *)
Definition hops (path : list string) : nat := length path - 1.

(** The state once [init] has run [_recalculate] and the user has done
    the given actions. *)
Definition sessionState (acts : list Action) : State :=
  foldl (perform NODES ADJACENCY EXITS START_NODE HAZARD_PRESETS)
    (_recalculate NODES ADJACENCY EXITS START_NODE initialState) acts.

(** The stored route is the route for the stored hazards, and the
    failure flag says whether there is none. *)
Definition routeCached (st : State) : Prop :=
  currentPath st = routeOf NODES ADJACENCY EXITS START_NODE st ∧
  evacuationFailed st = (if currentPath st is Some _ then false else true).

End Presenter.

End Presenter.
Export Presenter.


(** ** The graph builder *)

Module Builder.

(** A value of [state.builder.nodes]: [{ label, type, x, y }].  The
    coordinates only place the node on the canvas and are left out. *)
Record BuilderNode := mkBuilderNode { label : string; type : string }.

(** [state.builder].  [nodes] is a JS object whose keys are enumerated in
    insertion order ([Object.keys]), so it is kept as a list of pairs
    with the key first. *)
Record BuilderState := mkBuilder {
  nodes : list (string * BuilderNode);
  edges : list (string * string);
  selectedNode : option string;
  linkSource : option string
}.

(** [Object.keys(nodes)] *)
Definition nodeIds (nodes : list (string * BuilderNode)) : list string :=
  nodes.*1.

(** The test of [edges.some(...)] in link mode: the edge joins [a] and
    [id], in either order. *)
Definition joins (a id : string) (e : string * string) : Prop :=
  (e.1 = a ∧ e.2 = id) ∨ (e.1 = id ∧ e.2 = a).

#[global] Instance joins_dec a id e : Decision (joins a id e).
Proof. unfold joins. apply _. Defined.

(** [function onBuilderNodeClick(id)]; [mode] is the value of the mode
    selector.  The handler is attached to the nodes drawn on the canvas,
    so [id] is a key of [nodes], and identifiers are non-empty strings
    (they begin with [B_]), so [!linkSource] tests for [null]. *)
Definition onBuilderNodeClick (mode id : string) (b : BuilderState)
    : BuilderState :=
  if decide (mode = "link") then
    match linkSource b with
    | None =>
        {| nodes := nodes b; edges := edges b;
           selectedNode := selectedNode b; linkSource := Some id |}
    | Some a =>
        if decide (a = id) then b
        else
          {| nodes := nodes b;
             edges := if decide (Exists (joins a id) (edges b))
                      then edges b else edges b ++ [(a, id)];
             selectedNode := selectedNode b; linkSource := None |}
    end
  else if decide (mode = "delete") then
    {| nodes := filter (λ kv, kv.1 ≠ id) (nodes b);
       edges := filter (λ e, e.1 ≠ id ∧ e.2 ≠ id) (edges b);
       selectedNode := selectedNode b; linkSource := None |}
  else
    {| nodes := nodes b; edges := edges b;
       selectedNode := if decide (selectedNode b = Some id) then None
                       else Some id;
       linkSource := linkSource b |}.

(** The body of [edges.forEach] in [runBuilderBFS]:
    [if (adj[a]) adj[a].push(b); if (adj[b]) adj[b].push(a);]. *)
Definition addEdge (adj : gmap string (list string)) (e : string * string)
    : gmap string (list string) :=
  alter (λ l, l ++ [e.1]) e.2 (alter (λ l, l ++ [e.2]) e.1 adj).

(** The adjacency table [adj] that [runBuilderBFS] builds. *)
Definition builderAdjacency (b : BuilderState) : gmap string (list string) :=
  let adj := foldl (λ adj id, <[id := []]> adj) ∅ (nodeIds (nodes b)) in
  foldl addEdge adj (edges b).

(** [starts]: the identifiers whose type is [start] or [control]. *)
Definition starts (b : BuilderState) : list string :=
  (filter (λ kv, type kv.2 = "start" ∨ type kv.2 = "control") (nodes b)).*1.

(** [exits]: the set of identifiers whose type is [exit]. *)
Definition exits (b : BuilderState) : gset string :=
  list_to_set (filter (λ kv, type kv.2 = "exit") (nodes b)).*1.

(** What [runBuilderBFS] writes to the result line. *)
Inductive BuilderResult :=
  | Hint
  | PathOk (path : list string)
  | PathFail.

(** [function runBuilderBFS()] *)
Definition runBuilderBFS (b : BuilderState) : BuilderResult :=
  match starts b with
  | [] => Hint
  | start :: _ =>
      if decide (size (exits b) = 0) then Hint
      else
        match bfsEvacuate None (builderAdjacency b) (exits b) start ∅ ∅ with
        | Some path => PathOk path
        | None => PathFail
        end
  end.

(** No two edges of the list join the same two nodes. *)
Fixpoint distinctEdges (es : list (string * string)) : Prop :=
  match es with
  | [] => True
  | e :: rest => ¬ Exists (joins e.1 e.2) rest ∧ distinctEdges rest
  end.

(** The shape the click handlers keep: keys are unique, every edge joins
    two different existing nodes, no pair is joined twice, and a pending
    link source is an existing node. *)
Definition wellFormed (b : BuilderState) : Prop :=
  NoDup (nodeIds (nodes b)) ∧
  (∀ e, e ∈ edges b →
     e.1 ∈ nodeIds (nodes b) ∧ e.2 ∈ nodeIds (nodes b) ∧ e.1 ≠ e.2) ∧
  distinctEdges (edges b) ∧
  (∀ a, linkSource b = Some a → a ∈ nodeIds (nodes b)).

(** [state.builder] as [initBuilder] sets it. *)
Definition emptyBuilder : BuilderState :=
  {| nodes := []; edges := []; selectedNode := None; linkSource := None |}.

End Builder.

(** ** The audit log *)

Module AuditLog.

Section AuditLog.

(** An entry of the log: the [div] that [logAudit] creates. *)
Context {Entry : Type}.

(** [while (log.children.length > 50) log.removeChild(log.lastChild)],
    run for at most [fuel] iterations. *)
Fixpoint capLog (fuel : nat) (log : list Entry) : list Entry :=
  match fuel with
  | 0 => log
  | S fuel' =>
      if decide (50 < length log) then capLog fuel' (removelast log)
      else log
  end.

(** [function logAudit(message, type)] on the children of the log
    element, newest first: [log.prepend(entry)], then the cap.  The loop
    removes one child per iteration, so the length of the list bounds its
    iterations. *)
Definition logAudit (entry : Entry) (log : list Entry) : list Entry :=
  capLog (length (entry :: log)) (entry :: log).

End AuditLog.

End AuditLog.


(** ** More sample data *)

Module MoreSamples.

(** Two ways out: [S - A - E] and the longer [S - B - C - E]. *)
Definition detourAdj : gmap string (list string) :=
  {[ "S" := ["A"; "B"]; "A" := ["S"; "E"]; "B" := ["S"; "C"];
     "C" := ["B"; "E"]; "E" := ["A"; "C"] ]}.

(** A builder canvas with a control room, a hall, an exit and a store;
    the exit was linked to the hall by clicking the exit first. *)
Definition sampleBuilder : Builder.BuilderState :=
  {| Builder.nodes :=
       [("B_Control_1", Builder.mkBuilderNode "Control" "control");
        ("B_Hall_2", Builder.mkBuilderNode "Hall" "room");
        ("B_Exit_3", Builder.mkBuilderNode "Exit" "exit");
        ("B_Store_4", Builder.mkBuilderNode "Store" "room")];
     Builder.edges :=
       [("B_Control_1", "B_Hall_2"); ("B_Exit_3", "B_Hall_2")];
     Builder.selectedNode := None;
     Builder.linkSource := None |}.

End MoreSamples.


(** ** The alternative routes panel and the presets *)

Module Panel.

Section Panel.

Context (ADJACENCY : gmap string (list string)).
Context (EXITS : gset string).
Context (START_NODE : string).
Context (HAZARD_PRESETS : gmap string Preset).

(** [alts] in [renderRoutePanel]:
    [findAlternativePaths(ADJACENCY, EXITS, START_NODE, state.hazardNodes,
    state.hazardEdges, 3)]. *)
Definition alts (st : State) : list (list string) :=
  findAlternativePaths ADJACENCY EXITS START_NODE
    (hazardNodes st) (hazardEdges st) 3.

(** [alts.slice(1)], the routes listed under "Alternative Routes". *)
Definition alternativesShown (st : State) : list (list string) :=
  drop 1 (alts st).

(** No preset lists the start node among its nodes. *)
Definition presetsAvoidStart : Prop :=
  map_Forall (λ _ preset, START_NODE ∉ nodes preset) HAZARD_PRESETS.

#[global] Instance presetsAvoidStart_dec : Decision presetsAvoidStart.
Proof. unfold presetsAvoidStart. apply _. Defined.

End Panel.

End Panel.
Export Panel.


(** ** The hazard operations on every identifier

    [state.hazardTypes] and [HAZARD_PRESETS] are plain objects, so a read
    of a property that is not an own key falls through to
    [Object.prototype], and a write to [__proto__] sets no own key.  The
    operations of [HazardManager] leave this out: they are the operations
    on identifiers that [Object.prototype] does not name, which is what
    the click handlers of the page pass.  The operations below are the
    same functions for every string, with the [TypeError] that the code
    raises in some of these cases. *)

Module Js.

(** The own property names of [Object.prototype]. *)
Definition protoNames : list string :=
  ["constructor"; "hasOwnProperty"; "isPrototypeOf"; "propertyIsEnumerable";
   "toLocaleString"; "toString"; "valueOf"; "__proto__";
   "__defineGetter__"; "__defineSetter__"; "__lookupGetter__";
   "__lookupSetter__"].

(** How a call ends: it returns, or a [TypeError] leaves it; in both
    cases with the state as the call has written it so far. *)
Inductive Outcome :=
  | Returned (st : State)
  | Threw (st : State).

Definition stateOf (o : Outcome) : State :=
  match o with Returned st | Threw st => st end.

Definition halted (o : Outcome) : bool :=
  match o with Returned _ => false | Threw _ => true end.

(** [state.hazardTypes[nodeId] = type] with a string [type]: an own key
    is set, except for [__proto__], whose inherited setter ignores a
    value that is not an object.  ([hazardTypes] starts as [{}] and is
    only written by such assignments, so it has no own key
    [__proto__].) *)
Definition writeKind (nodeId type : string) (types : gmap string string)
    : gmap string string :=
  if decide (nodeId = "__proto__") then types else <[nodeId := type]> types.

(** [const type = state.hazardTypes[nodeId]] yields an inherited value
    (a function, or [Object.prototype] itself for [__proto__]): there is
    no own key and [Object.prototype] has the name.  Such a value is
    truthy and has no [toUpperCase]. *)
Definition readsInherited (nodeId : string) (types : gmap string string)
    : bool :=
  bool_decide (types !! nodeId = None ∧ nodeId ∈ protoNames).

Section Js.

Context (NODES : gmap string Node).
Context (ADJACENCY : gmap string (list string)).
Context (EXITS : gset string).
Context (START_NODE : string).
Context (HAZARD_PRESETS : gmap string Preset).

(** [function applyHazard(nodeId, type)].  [NODES[nodeId]?.label] is
    [undefined] for an inherited value too, and [type] is a string, so the
    message is built and the call returns. *)
Definition applyHazard (nodeId type : string) (st : State) : Outcome :=
  let st := setHazardNodes ({[nodeId]} ∪ hazardNodes st) st in
  let st := setHazardTypes (writeKind nodeId type (hazardTypes st)) st in
  Returned (_recalculate NODES ADJACENCY EXITS START_NODE st).

(** [function removeHazard(nodeId)].  [type] is read first; then
    [hazardNodes.delete] and [delete hazardTypes[nodeId]] are done; then
    the message is built, where [type.toUpperCase()] is called when
    [type] is truthy: on an inherited value this raises the [TypeError],
    before [_recalculate]. *)
Definition removeHazard (nodeId : string) (st : State) : Outcome :=
  let inheritedType := readsInherited nodeId (hazardTypes st) in
  let st := setHazardNodes (hazardNodes st ∖ {[nodeId]}) st in
  let st := setHazardTypes (delete nodeId (hazardTypes st)) st in
  if inheritedType then Threw st
  else Returned (_recalculate NODES ADJACENCY EXITS START_NODE st).

(** [function toggleHazard(nodeId)] *)
Definition toggleHazard (nodeId : string) (st : State) : Outcome :=
  if decide (nodeId = START_NODE) then Returned st
  else if decide (nodeId ∈ hazardNodes st) then removeHazard nodeId st
  else applyHazard nodeId (selectedHazard st) st.

(** The body of [preset.nodes.forEach]. *)
Definition presetNode (st : State) (n : string) : State :=
  let st := setHazardNodes ({[n]} ∪ hazardNodes st) st in
  setHazardTypes (writeKind n "fire" (hazardTypes st)) st.

(** [function applyPreset(presetName)].  For a name that is no own key of
    [HAZARD_PRESETS] but a name of [Object.prototype], [preset] is the
    inherited value, which is truthy: [resetAll()] runs and then
    [preset.nodes.forEach] raises the [TypeError], [preset.nodes] being
    [undefined]. *)
Definition applyPreset (presetName : string) (st : State) : Outcome :=
  match HAZARD_PRESETS !! presetName with
  | Some preset =>
      let st := resetAll NODES ADJACENCY EXITS START_NODE st in
      let st := foldl presetNode st (nodes preset) in
      let st := foldl presetEdge st (edges preset) in
      Returned (_recalculate NODES ADJACENCY EXITS START_NODE st)
  | None =>
      if decide (presetName ∈ protoNames)
      then Threw (resetAll NODES ADJACENCY EXITS START_NODE st)
      else Returned st
  end.

(** The five operations of the hazard state manager. *)
Definition runOperation (op : Operation) (st : State) : Outcome :=
  match op with
  | OpApply nodeId type => applyHazard nodeId type st
  | OpRemove nodeId => removeHazard nodeId st
  | OpToggle nodeId => toggleHazard nodeId st
  | OpReset => Returned (resetAll NODES ADJACENCY EXITS START_NODE st)
  | OpPreset presetName => applyPreset presetName st
  end.

(** The operation does not try to record a kind for [__proto__]: it is
    not [applyHazard] or [toggleHazard] on that identifier, and not a
    preset that lists it. *)
Definition avoidsProto (op : Operation) : Prop :=
  match op with
  | OpApply nodeId _ | OpToggle nodeId => nodeId ≠ "__proto__"
  | OpRemove _ | OpReset => True
  | OpPreset presetName =>
      match HAZARD_PRESETS !! presetName with
      | Some preset => "__proto__" ∉ nodes preset
      | None => True
      end
  end.

#[global] Instance avoidsProto_dec op : Decision (avoidsProto op).
Proof.
  destruct op as [nodeId type|nodeId|nodeId| |presetName]; simpl; try apply _.
  destruct (HAZARD_PRESETS !! presetName); apply _.
Defined.


End Js.

End Js.


(** ** Operations on ordinary names *)

Module Ordinary.

(** Every name the operation handles is one that [Object.prototype] does
    not have: the node it refers to, or the preset name and the nodes of
    that preset. *)
Definition ordinaryOperation (HAZARD_PRESETS : gmap string Preset)
    (op : Operation) : Prop :=
  match op with
  | OpApply nodeId _ | OpRemove nodeId | OpToggle nodeId =>
      nodeId ∉ Js.protoNames
  | OpReset => True
  | OpPreset presetName =>
      (presetName ∉ Js.protoNames) ∧
      match HAZARD_PRESETS !! presetName with
      | Some preset => Forall (λ n, n ∉ Js.protoNames) (nodes preset)
      | None => True
      end
  end.

#[global] Instance ordinaryOperation_dec presets op :
  Decision (ordinaryOperation presets op).
Proof.
  destruct op as [nodeId type|nodeId|nodeId| |presetName]; simpl; try apply _.
  destruct (presets !! presetName); apply _.
Defined.

End Ordinary.
Export Ordinary.


(** * Properties *)

(** ** Edge keys *)

Lemma sort_pair_swap (a b : string) :
  sort_pair a b = sort_pair b a ∨ (a = b).
Proof.
  unfold sort_pair, String.ltb.
  rewrite (String.compare_antisym a b).
  destruct (String.compare b a) eqn:E; simpl; auto.
  right. symmetry. by apply String.compare_eq_iff.
Qed.

(** C9. The canonical key of an edge does not depend on the order in
    which its two end points are given:
    [edgeKey(A, B) == edgeKey(B, A)] for all identifiers. *)
Theorem edgeKey_symmetric (a b : string) : edgeKey a b = edgeKey b a.
Proof.
  unfold edgeKey.
  destruct (sort_pair_swap a b) as [-> | ->]; reflexivity.
Qed.

(** ** The path finder *)

Section BfsFacts.

Context (adjacency : gmap string (list string)).
Context (exits : gset string) (start : string).
Context (blockedNodes blockedEdges : gset string).

Local Abbreviation expand := (expand blockedNodes blockedEdges).
Local Abbreviation bfs_loop := (bfs_loop adjacency exits blockedNodes blockedEdges).
Local Abbreviation step := (step adjacency blockedNodes blockedEdges).
Local Abbreviation traversable := (traversable adjacency blockedNodes blockedEdges).
Local Abbreviation walk := (walk adjacency start blockedNodes blockedEdges).
Local Abbreviation validRoute :=
  (validRoute adjacency exits start blockedNodes blockedEdges).

(** *** The neighbour loop *)

(** What one run of the neighbour loop does: it appends [path ++ [n]] for
    the accepted neighbours [n], in order, and marks them visited.  The
    accepted ones are exactly the listed neighbours that were neither
    visited nor blocked, each taken once. *)
Lemma expand_spec path current ns visited queue :
  ∃ new : list string,
    expand path current ns visited queue =
      (list_to_set new ∪ visited, queue ++ ((λ n, path ++ [n]) <$> new)) ∧
    NoDup new ∧
    (∀ n, n ∈ new →
       n ∈ ns ∧ (n ∉ visited) ∧ (n ∉ blockedNodes) ∧
       (edgeKey current n ∉ blockedEdges)) ∧
    (∀ n, n ∈ ns → n ∉ blockedNodes → edgeKey current n ∉ blockedEdges →
       n ∈ visited ∨ n ∈ new).
Proof.
  revert visited queue.
  induction ns as [|n ns IH]; intros visited queue; simpl.
  - exists []. simpl. rewrite app_nil_r.
    split; [f_equal; set_solver|].
    split; [constructor|]. split; intros ? H; by apply elem_of_nil in H.
  - destruct (decide (n ∈ visited)) as [Hv|Hv];
      [|destruct (decide (n ∈ blockedNodes)) as [Hb|Hb];
        [|destruct (decide (edgeKey current n ∈ blockedEdges)) as [He|He]]].
    1-3: destruct (IH visited queue) as (new & -> & Hnd & Hin & Hall);
      exists new; split; [done|]; split; [done|]; split;
      [ intros m Hm; destruct (Hin m Hm) as (?&?&?&?); set_solver
      | intros m Hm ? ?; apply elem_of_cons in Hm as [->|Hm]; [|by eauto];
        first [by left | done] ].
    destruct (IH ({[n]} ∪ visited) (queue ++ [path ++ [n]]))
      as (new & -> & Hnd & Hin & Hall).
    exists (n :: new). split; [|split; [|split]].
    + rewrite fmap_cons, <- app_assoc. simpl. f_equal. set_solver.
    + constructor; [|done]. intros Hm. destruct (Hin n Hm) as (?&?&?&?).
      set_solver.
    + intros m Hm. apply elem_of_cons in Hm as [->|Hm].
      * set_solver.
      * destruct (Hin m Hm) as (?&?&?&?). set_solver.
    + intros m Hm ? ?. apply elem_of_cons in Hm as [->|Hm].
      * right. set_solver.
      * destruct (Hall m Hm) as [?|?]; [done|done| |]; set_solver.
Qed.

(** *** Traversable sequences *)

Lemma traversable_snoc_inv p u v :
  last p = Some u → traversable (p ++ [v]) → traversable p ∧ step u v.
Proof.
  induction p as [|a [|b r] IH]; intros Hl Ht.
  - discriminate.
  - simpl in Hl. injection Hl as ->. simpl in Ht. tauto.
  - rewrite last_cons_cons in Hl.
    change (step a b ∧ traversable ((b :: r) ++ [v])) in Ht.
    destruct Ht as [Hab Ht]. destruct (IH Hl Ht) as [? ?].
    split; [|done]. by split.
Qed.

Lemma traversable_snoc p u v :
  last p = Some u → traversable p → step u v → traversable (p ++ [v]).
Proof.
  induction p as [|a [|b r] IH]; intros Hl Ht Hs.
  - discriminate.
  - simpl in Hl. injection Hl as ->. simpl. tauto.
  - rewrite last_cons_cons in Hl. destruct Ht as [Hab Ht].
    change (step a b ∧ traversable ((b :: r) ++ [v])). split; [done|].
    by apply IH.
Qed.

Lemma traversable_unblocked p h :
  head p = Some h → h ∉ blockedNodes → traversable p →
  ∀ u, u ∈ p → u ∉ blockedNodes.
Proof.
  revert h. induction p as [|a [|b r] IH]; intros h Hh Hnb Ht u Hu.
  - by apply elem_of_nil in Hu.
  - injection Hh as ->. apply list_elem_of_singleton in Hu as ->. done.
  - injection Hh as ->. destruct Ht as [(_ & Hb & _) Ht].
    apply elem_of_cons in Hu as [->|Hu]; [done|].
    by apply (IH b).
Qed.

Lemma traversable_steps p i u v :
  traversable p → p !! i = Some u → p !! S i = Some v → step u v.
Proof.
  revert i. induction p as [|a [|b r] IH]; intros i Ht Hu Hv.
  - discriminate.
  - destruct i; discriminate.
  - destruct Ht as [Hab Ht]. destruct i as [|i].
    + simpl in Hu, Hv. by simplify_eq.
    + by apply (IH i).
Qed.

(** A traversable sequence from the unblocked start is a walk of as many
    steps as it has edges. *)
Lemma traversable_walk p v :
  head p = Some start → start ∉ blockedNodes → traversable p →
  last p = Some v → walk (length p - 1) v.
Proof.
  intros Hh Hs. revert v.
  induction p as [|x q IH] using rev_ind; intros v Ht Hl; [discriminate|].
  rewrite last_snoc in Hl. injection Hl as ->.
  destruct (last q) as [u|] eqn:Hq.
  - destruct (traversable_snoc_inv q u v Hq Ht) as [Htq Hstep].
    assert (q ≠ []) as Hne by (intros ->; discriminate).
    rewrite head_app in Hh. destruct q as [|a q']; [done|].
    rewrite length_app. simpl length.
    replace (S (length q') + 1 - 1) with (S (S (length q') - 1)) by lia.
    eapply walk_step; [|exact Hstep]. by apply IH.
  - apply last_None in Hq as ->. simpl in *. injection Hh as ->.
    by constructor.
Qed.

(** *** The invariant of the search loop *)

Local Abbreviation goodPath := (goodPath adjacency start blockedNodes blockedEdges).
Local Abbreviation bfsInv :=
  (bfsInv adjacency exits start blockedNodes blockedEdges).

Lemma goodPath_mono V V' p : V ⊆ V' → goodPath V p → goodPath V' p.
Proof. intros HV (?&?&?&Hin). repeat split; try done. set_solver. Qed.

Lemma bfsInv_init :
  start ∉ blockedNodes → bfsInv 0 ∅ [[start]] [] {[start]}.
Proof.
  intros Hs. split; [done|..].
  - intros p ->%list_elem_of_singleton. repeat split; simpl; try done.
    + apply NoDup_singleton.
    + set_solver.
  - intros p Hp. by apply elem_of_nil in Hp.
  - intros v Hv. apply elem_of_singleton in Hv. rewrite Hv.
    right. exists [start]. split; [set_solver|done].
  - set_solver.
  - intros; lia.
  - intros v Hw. right. exists [start]. split; [set_solver|].
    inversion Hw. done.
Qed.

(** When [front] is exhausted the search moves to the next level. *)
Lemma bfsInv_next_level d closed back visited :
  bfsInv d closed [] back visited → bfsInv (S d) closed back [] visited.
Proof.
  intros [Hs Hf Hb Hv Hc Hn Hl].
  assert (∀ k v, walk k v → k < S d → v ∈ closed) as Hn'.
  { intros k v Hw Hk. destruct (decide (k < d)); [by eapply Hn|].
    replace k with d in Hw by lia.
    destruct (Hl v Hw) as [?|(p & Hp & _)]; [done|].
    by apply elem_of_nil in Hp. }
  split; try done.
  - intros p Hp. by apply elem_of_nil in Hp.
  - intros v Hvis. rewrite app_nil_r. apply Hv in Hvis. by simpl in Hvis.
  - intros v Hw. inversion Hw as [|k u v' Hwu Hstep]; subst.
    assert (u ∈ closed) as Hu by (eapply Hn'; [done|lia]).
    destruct (Hc u Hu) as [_ Hall].
    destruct (Hv v (Hall v Hstep)) as [?|(p & Hp & ?)]; [by left|].
    right. exists p. by simpl in Hp.
Qed.

(** The head of a non-empty queue can always be taken to lie in
    [front]. *)
Lemma bfsInv_head p queue visited :
  (∃ d closed front back,
     p :: queue = front ++ back ∧ bfsInv d closed front back visited) →
  ∃ d closed front back,
    queue = front ++ back ∧ bfsInv d closed (p :: front) back visited.
Proof.
  intros (d & closed & front & back & Hq & Inv).
  destruct front as [|p' front].
  - simpl in Hq. subst back. exists (S d), closed, queue, [].
    split; [by rewrite app_nil_r|]. by apply bfsInv_next_level.
  - injection Hq as <- ->. by exists d, closed, front, back.
Qed.

(** Dequeuing a path that does not end in an exit and running the
    neighbour loop keeps the invariant. *)
Lemma bfsInv_pop d closed p front back visited u visited' queue' :
  bfsInv d closed (p :: front) back visited →
  last p = Some u → u ∉ exits →
  expand p u (neighborsOf adjacency u) visited (front ++ back)
    = (visited', queue') →
  ∃ back', queue' = front ++ back' ∧
           bfsInv d ({[u]} ∪ closed) front back' visited'.
Proof.
  intros [Hs Hf Hb Hv Hc Hn Hl] Hlast Hnex Hexp.
  destruct (expand_spec p u (neighborsOf adjacency u) visited (front ++ back))
    as (new & Heq & Hnd & Hin & Hall).
  rewrite Hexp in Heq. injection Heq as -> ->.
  exists (back ++ ((λ n, p ++ [n]) <$> new)).
  split; [by rewrite app_assoc|].
  destruct (Hf p) as [(Hph & Hpt & Hpn & Hpv) Hplen]; [by left|].
  split; try done.
  - intros q Hq. destruct (Hf q) as [Hg ?]; [by right|].
    split; [|done]. eapply goodPath_mono; [|done]. set_solver.
  - intros q [Hq|Hq]%elem_of_app.
    + destruct (Hb q Hq) as [Hg ?]. split; [|done].
      eapply goodPath_mono; [|done]. set_solver.
    + apply list_elem_of_fmap in Hq as (n & -> & Hn').
      destruct (Hin n Hn') as (Hns & Hnv & Hnb & Hne).
      split; [|rewrite length_app; simpl; lia].
      repeat split.
      * rewrite head_app. by rewrite Hph.
      * by apply (traversable_snoc p u n).
      * apply NoDup_app. split; [done|]. split; [|apply NoDup_singleton].
        intros x Hx ->%list_elem_of_singleton. by apply Hnv, Hpv.
      * intros x [Hx|Hx]%elem_of_app.
        -- apply Hpv in Hx. set_solver.
        -- apply list_elem_of_singleton in Hx as ->.
           apply elem_of_union_l. by apply elem_of_list_to_set.
  - intros v [Hv'|Hv']%elem_of_union.
    + apply elem_of_list_to_set in Hv'. right. exists (p ++ [v]).
      split; [|apply last_snoc].
      rewrite app_assoc. apply elem_of_app. right.
      apply list_elem_of_fmap. by exists v.
    + destruct (Hv v Hv') as [?|(q & Hq & Hql)]; [left; set_solver|].
      change ((p :: front) ++ back) with (p :: (front ++ back)) in Hq.
      apply elem_of_cons in Hq as [->|Hq].
      * left. rewrite Hlast in Hql. injection Hql as ->. set_solver.
      * right. exists q. split; [|done]. rewrite app_assoc.
        apply elem_of_app in Hq as [?|?]; set_solver.
  - intros w [Hw|Hw]%elem_of_union.
    + apply elem_of_singleton in Hw as ->.
      split; [done|]. intros v (Hvn & Hvb & Hve).
      destruct (Hall v Hvn Hvb Hve) as [?|?]; [set_solver|].
      apply elem_of_union_l. by apply elem_of_list_to_set.
    + destruct (Hc w Hw) as [? Hsucc]. split; [done|].
      intros v Hst. apply Hsucc in Hst. set_solver.
  - intros k v Hw Hk. apply elem_of_union_r. by eapply Hn.
  - intros v Hw. destruct (Hl v Hw) as [?|(q & Hq & Hql)]; [left; set_solver|].
    apply elem_of_cons in Hq as [->|Hq].
    + left. rewrite Hlast in Hql. injection Hql as ->. set_solver.
    + right. by exists q.
Qed.

(** If the loop returns a path, the path is a simple traversable path
    from the start to an exit, and no exit is reachable in fewer steps. *)
Lemma bfs_loop_found fuel queue visited r :
  bfs_loop fuel queue visited = Some (Some r) →
  (∃ d closed front back,
     queue = front ++ back ∧ bfsInv d closed front back visited) →
  head r = Some start ∧ traversable r ∧ NoDup r ∧
  endsInExit exits r ∧
  ∀ k e, walk k e → e ∈ exits → length r ≤ S k.
Proof.
  revert queue visited.
  induction fuel as [|fuel IH]; intros queue visited Hrun Hinv; [discriminate|].
  destruct queue as [|p queue]; [discriminate|]. simpl in Hrun.
  apply bfsInv_head in Hinv as (d & closed & front & back & -> & Inv).
  pose proof Inv as [Hs Hf Hb Hv Hc Hn Hl].
  destruct (Hf p) as [(Hph & Hpt & Hpn & Hpv) Hlen]; [by left|].
  destruct (last p) as [u|] eqn:Hlast;
    [|apply last_None in Hlast; subst; discriminate Hlen].
  destruct (decide (u ∈ exits)) as [Hex|Hex].
  - injection Hrun as <-. repeat split; [done..|by exists u|].
    intros k e Hw He. destruct (decide (k < d)) as [Hk|Hk]; [|lia].
    exfalso. by destruct (Hc e (Hn k e Hw Hk)).
  - destruct (expand p u (neighborsOf adjacency u) visited (front ++ back))
      as [visited' queue'] eqn:Hexp.
    destruct (bfsInv_pop _ _ _ _ _ _ _ _ _ Inv Hlast Hex Hexp)
      as (back' & -> & Inv').
    eapply IH; [exact Hrun|]. by exists d, ({[u]} ∪ closed), front, back'.
Qed.

Lemma bfsInv_levels n d closed visited :
  bfsInv d closed [] [] visited → bfsInv (n + d) closed [] [] visited.
Proof.
  intros Inv. induction n as [|n IH]; [done|].
  simpl. by apply bfsInv_next_level.
Qed.

(** If the loop ends with an empty queue, no exit can be reached from
    the start at all. *)
Lemma bfs_loop_not_found fuel queue visited :
  bfs_loop fuel queue visited = Some None →
  (∃ d closed front back,
     queue = front ++ back ∧ bfsInv d closed front back visited) →
  ∀ k e, walk k e → e ∉ exits.
Proof.
  revert queue visited.
  induction fuel as [|fuel IH]; intros queue visited Hrun Hinv; [discriminate|].
  destruct queue as [|p queue].
  - destruct Hinv as (d & closed & front & back & Hq & Inv).
    symmetry in Hq. apply app_eq_nil in Hq as [-> ->].
    intros k e Hw.
    destruct (bfsInv_levels (S k) d closed visited Inv) as [_ _ _ _ Hc Hn _].
    assert (e ∈ closed) as He by (eapply Hn; [done|lia]).
    by destruct (Hc e He).
  - simpl in Hrun.
    apply bfsInv_head in Hinv as (d & closed & front & back & -> & Inv).
    pose proof Inv as [Hs Hf Hb Hv Hc Hn Hl].
    destruct (Hf p) as [_ Hlen]; [by left|].
    destruct (last p) as [u|] eqn:Hlast;
      [|apply last_None in Hlast; subst; discriminate Hlen].
    destruct (decide (u ∈ exits)) as [Hex|Hex]; [discriminate|].
    destruct (expand p u (neighborsOf adjacency u) visited (front ++ back))
      as [visited' queue'] eqn:Hexp.
    destruct (bfsInv_pop _ _ _ _ _ _ _ _ _ Inv Hlast Hex Hexp)
      as (back' & -> & Inv').
    eapply IH; [exact Hrun|]. by exists d, ({[u]} ∪ closed), front, back'.
Qed.

(** *** Termination of the search loop *)

Lemma neighborsOf_listed u n :
  n ∈ neighborsOf adjacency u → n ∈ listedNodes adjacency.
Proof.
  unfold neighborsOf, listedNodes.
  destruct (adjacency !! u) as [l|] eqn:E; simpl; intros Hn;
    [|by apply elem_of_nil in Hn].
  apply elem_of_union_list. exists (list_to_set l).
  split; [|by apply elem_of_list_to_set].
  apply list_elem_of_fmap. exists (u, l). split; [done|].
  by apply elem_of_map_to_list.
Qed.

(** Each iteration removes one path from the queue, and every path it
    adds uses up one listed node that was not yet visited. *)
Lemma bfs_loop_enough_fuel fuel queue visited :
  length queue + size (listedNodes adjacency ∖ visited) < fuel →
  is_Some (bfs_loop fuel queue visited).
Proof.
  revert queue visited.
  induction fuel as [|fuel IH]; intros queue visited Hm; [lia|].
  destruct queue as [|p queue]; simpl; [by eexists|].
  destruct (last p) as [u|]; [|apply IH; simpl in Hm; lia].
  destruct (decide (u ∈ exits)); [by eexists|].
  destruct (expand_spec p u (neighborsOf adjacency u) visited queue)
    as (new & -> & Hnd & Hin & _).
  apply IH. rewrite length_app, length_fmap. simpl in Hm.
  assert (list_to_set new ⊆ listedNodes adjacency ∖ visited) as Hsub.
  { intros m Hn%elem_of_list_to_set. destruct (Hin m Hn) as (Hns & ? & _).
    apply neighborsOf_listed in Hns. set_solver. }
  replace (listedNodes adjacency ∖ (list_to_set new ∪ visited))
    with ((listedNodes adjacency ∖ visited) ∖ list_to_set new) by set_solver.
  rewrite size_difference by done.
  rewrite size_list_to_set by done.
  apply subseteq_size in Hsub. rewrite size_list_to_set in Hsub by done.
  lia.
Qed.

(** The loop of [bfsEvacuate] always finishes within [bfs_fuel]
    iterations: the search is total. *)
Lemma bfs_loop_terminates :
  is_Some (bfs_loop (bfs_fuel adjacency) [[start]] {[start]}).
Proof.
  apply bfs_loop_enough_fuel. unfold bfs_fuel. simpl.
  pose proof (subseteq_size (listedNodes adjacency ∖ {[start]})
                (listedNodes adjacency)) as H.
  assert (listedNodes adjacency ∖ {[start]} ⊆ listedNodes adjacency)
    as Hsub by set_solver.
  apply H in Hsub. lia.
Qed.

(** More fuel never changes a result. *)
Lemma bfs_loop_more_fuel fuel fuel' queue visited r :
  bfs_loop fuel queue visited = Some r → fuel ≤ fuel' →
  bfs_loop fuel' queue visited = Some r.
Proof.
  revert fuel' queue visited.
  induction fuel as [|fuel IH]; intros fuel' queue visited Hrun Hle;
    [discriminate|].
  destruct fuel' as [|fuel']; [lia|].
  destruct queue as [|p queue]; simpl in *; [done|].
  destruct (last p) as [u|]; [|apply IH; [done|lia]].
  destruct (decide (u ∈ exits)); [done|].
  destruct (expand p u (neighborsOf adjacency u) visited queue).
  apply IH; [done|lia].
Qed.

(** *** What [bfsEvacuate] returns *)

(** [bfsEvacuate] is the result of the loop, for every number of
    iterations from [bfs_fuel] on. *)
Lemma bfsEvacuate_is_loop_result graph fuel :
  start ∉ blockedNodes → bfs_fuel adjacency ≤ fuel →
  bfs_loop fuel [[start]] {[start]} =
    Some (bfsEvacuate graph adjacency exits start blockedNodes blockedEdges).
Proof.
  intros Hs Hfuel. unfold bfsEvacuate. rewrite decide_False by done.
  destruct bfs_loop_terminates as [res Hres]. rewrite Hres.
  by apply (bfs_loop_more_fuel (bfs_fuel adjacency)).
Qed.

Lemma bfsEvacuate_found graph r :
  bfsEvacuate graph adjacency exits start blockedNodes blockedEdges = Some r →
  (start ∉ blockedNodes) ∧
  head r = Some start ∧ traversable r ∧ NoDup r ∧
  endsInExit exits r ∧
  ∀ k e, walk k e → e ∈ exits → length r ≤ S k.
Proof.
  unfold bfsEvacuate. destruct (decide (start ∈ blockedNodes)); [done|].
  destruct (PathFinder.bfs_loop _ _ _ _ _ _ _) as [[r'|]|] eqn:Hrun; try done.
  intros [= ->]. split; [done|].
  eapply bfs_loop_found; [exact Hrun|].
  exists 0, ∅, [[start]], []. split; [done|]. by apply bfsInv_init.
Qed.

Lemma bfsEvacuate_viable graph r :
  bfsEvacuate graph adjacency exits start blockedNodes blockedEdges = Some r →
  viableRoute adjacency exits start blockedNodes blockedEdges r.
Proof.
  intros (? & ? & ? & ? & ? & _)%bfsEvacuate_found. by repeat split.
Qed.

(** [bfsEvacuate] returns [null] only when there is no valid route. *)
Lemma bfsEvacuate_not_found graph q :
  bfsEvacuate graph adjacency exits start blockedNodes blockedEdges = None →
  ¬ validRoute q.
Proof.
  unfold bfsEvacuate. intros Hrun (Hqh & Hs & Hqt & e & Hql & Hqx).
  rewrite decide_False in Hrun by done.
  destruct bfs_loop_terminates as [res Hres]. rewrite Hres in Hrun. subst res.
  eapply bfs_loop_not_found; [exact Hres| |by eapply traversable_walk|done].
  exists 0, ∅, [[start]], []. split; [done|]. by apply bfsInv_init.
Qed.

Lemma bfsEvacuate_complete graph q :
  validRoute q →
  is_Some (bfsEvacuate graph adjacency exits start blockedNodes blockedEdges).
Proof.
  intros Hq.
  destruct (bfsEvacuate graph adjacency exits start blockedNodes blockedEdges)
    eqn:Hrun; [by eexists|].
  by apply (bfsEvacuate_not_found graph q) in Hrun.
Qed.

(** The [graph] argument is not read. *)
Lemma bfsEvacuate_graph_unused graph graph' :
  bfsEvacuate graph adjacency exits start blockedNodes blockedEdges =
  bfsEvacuate graph' adjacency exits start blockedNodes blockedEdges.
Proof. reflexivity. Qed.

(** C1. Whenever [bfsEvacuate] returns a route, it is a valid
    hazard-avoiding route from the start to an exit, and it has no more
    edges than any other valid route [q] from the start to any exit: the
    returned route has the minimum number of edges. *)
Theorem bfsEvacuate_shortest graph r q :
  bfsEvacuate graph adjacency exits start blockedNodes blockedEdges = Some r →
  validRoute q →
  validRoute r ∧ edgeCount r ≤ edgeCount q.
Proof.
  intros (Hs & Hh & Ht & _ & He & Hmin)%bfsEvacuate_found (Hqh & _ & Hqt & Hqe).
  split; [done|].
  destruct Hqe as (e & Hql & Hqx).
  pose proof (traversable_walk q e Hqh Hs Hqt Hql) as Hw.
  specialize (Hmin _ _ Hw Hqx). unfold edgeCount. lia.
Qed.

(** C2. Whenever [bfsEvacuate] returns a route, its first element is the
    start, its last element is an exit, no node occurs twice, every
    consecutive pair is adjacent (the second is listed as a neighbour of
    the first), no node of the route is in [blockedNodes] and the
    canonical key of no traversed edge is in [blockedEdges]. *)
Theorem bfsEvacuate_route_wellformed graph r :
  bfsEvacuate graph adjacency exits start blockedNodes blockedEdges = Some r →
  head r = Some start ∧
  (∃ e, last r = Some e ∧ e ∈ exits) ∧
  NoDup r ∧
  (∀ i u v, r !! i = Some u → r !! S i = Some v →
     v ∈ neighborsOf adjacency u ∧ edgeKey u v ∉ blockedEdges) ∧
  (∀ u, u ∈ r → u ∉ blockedNodes).
Proof.
  intros (Hs & Hh & Ht & Hnd & He & _)%bfsEvacuate_found.
  repeat split; try done.
  - by destruct (traversable_steps r i u v Ht) as (? & _ & _).
  - by destruct (traversable_steps r i u v Ht) as (_ & _ & ?).
  - by apply (traversable_unblocked r start).
Qed.

(** C5. If the start node is blocked, [bfsEvacuate] returns [null], for
    every graph, exit set and set of blocked edges, also when the start
    is itself an exit. *)
Theorem bfsEvacuate_blocked_start graph :
  start ∈ blockedNodes →
  bfsEvacuate graph adjacency exits start blockedNodes blockedEdges = None.
Proof. intros Hs. unfold bfsEvacuate. by rewrite decide_True. Qed.

(** C10. If the start node is an exit and is not blocked, [bfsEvacuate]
    returns the one-node route [[start]], whatever the adjacency and the
    blocked edges are. *)
Theorem bfsEvacuate_start_is_exit graph :
  start ∈ exits → start ∉ blockedNodes →
  bfsEvacuate graph adjacency exits start blockedNodes blockedEdges
    = Some [start].
Proof.
  intros He Hs. unfold bfsEvacuate, bfs_fuel.
  rewrite decide_False by done. simpl. by rewrite decide_True.
Qed.

End BfsFacts.

(** ** Alternative routes *)

Section Weakening.

Context (adjacency : gmap string (list string)).
Context (exits : gset string) (start : string).
Context (blockedNodes blockedNodes' blockedEdges : gset string).
Context (Hmore : blockedNodes ⊆ blockedNodes').

(** A route that avoids a larger set of blocked nodes avoids the smaller
    one too. *)
Lemma traversable_weaken p :
  traversable adjacency blockedNodes' blockedEdges p →
  traversable adjacency blockedNodes blockedEdges p.
Proof.
  induction p as [|a [|b r] IH]; [done..|].
  intros [(? & ? & ?) Ht]. split; [|by apply IH].
  repeat split; [done| |done]. set_solver.
Qed.

Lemma viableRoute_weaken p :
  viableRoute adjacency exits start blockedNodes' blockedEdges p →
  viableRoute adjacency exits start blockedNodes blockedEdges p.
Proof.
  intros [(? & ? & ? & ?) ?]. repeat split; try done; [set_solver|].
  by apply traversable_weaken.
Qed.

End Weakening.

Section AlternativesFacts.

Context (adjacency : gmap string (list string)).
Context (exits : gset string) (start : string).
Context (blockedNodes blockedEdges : gset string).

Local Abbreviation viable :=
  (viableRoute adjacency exits start blockedNodes blockedEdges).
Local Abbreviation shortest :=
  (bfsEvacuate None adjacency exits start blockedNodes blockedEdges).
Local Abbreviation tryInterior :=
  (tryInterior adjacency exits start blockedNodes blockedEdges).
Local Abbreviation altLoop :=
  (altLoop adjacency exits start blockedNodes blockedEdges).
Local Abbreviation findAlternativePaths :=
  (findAlternativePaths adjacency exits start blockedNodes blockedEdges).

(** An alternative accepted by the inner loop is a viable route under
    the real hazards, and its key was not used before. *)
Lemma tryInterior_Some interior usedPaths alt :
  tryInterior interior usedPaths = Some alt →
  (joinPath alt ∉ usedPaths) ∧ viable alt.
Proof.
  induction interior as [|node rest IH]; simpl; [done|].
  destruct (bfsEvacuate None adjacency exits start (blockedNodes ∪ {[node]})
              blockedEdges) as [alt'|] eqn:Hrun; [|done].
  destruct (decide (joinPath alt' ∈ usedPaths)); [done|].
  intros [= ->]. split; [done|].
  apply bfsEvacuate_viable in Hrun.
  eapply viableRoute_weaken; [|exact Hrun]. set_solver.
Qed.

(** The outer loop only appends to [paths], at most one route per
    iteration; the routes stay viable and their keys stay distinct. *)
Lemma altLoop_spec iters i paths usedPaths :
  (∀ p, p ∈ paths → viable p ∧ joinPath p ∈ usedPaths) →
  NoDup (joinPath <$> paths) →
  ∃ more,
    altLoop iters i paths usedPaths = paths ++ more ∧
    length more ≤ iters ∧
    (∀ p, p ∈ paths ++ more → viable p) ∧
    NoDup (joinPath <$> (paths ++ more)).
Proof.
  revert i paths usedPaths.
  induction iters as [|iters IH]; intros i paths usedPaths Hin Hnd.
  { exists []. rewrite app_nil_r. simpl.
    split_and!; [done|lia| |done]. intros p Hp. by apply Hin. }
  assert (∃ more, paths = paths ++ more ∧ length more ≤ S iters ∧
            (∀ p, p ∈ paths ++ more → viable p) ∧
            NoDup (joinPath <$> (paths ++ more))) as Hstop.
  { exists []. rewrite app_nil_r. simpl.
    split_and!; [done|lia| |done]. intros p Hp. by apply Hin. }
  simpl. destruct (paths !! (i - 1)) as [prevPath|]; [|done].
  destruct (tryInterior (interiorNodes prevPath) usedPaths) as [alt|] eqn:Htry;
    [|done].
  apply tryInterior_Some in Htry as [Hnew Hv].
  destruct (IH (S i) (paths ++ [alt]) ({[joinPath alt]} ∪ usedPaths))
    as (more & -> & Hlen & Hall & Hnd').
  - intros p [Hp|Hp]%elem_of_app.
    + destruct (Hin p Hp). split; [done|set_solver].
    + apply list_elem_of_singleton in Hp as ->. split; [done|set_solver].
  - rewrite fmap_app. apply NoDup_app. split; [done|].
    split; [|apply NoDup_singleton].
    intros k Hk Hk'. apply list_elem_of_singleton in Hk' as ->.
    apply list_elem_of_fmap in Hk as (p & Heq & Hp).
    destruct (Hin p Hp) as [_ Hused]. by rewrite <- Heq in Hused.
  - exists (alt :: more). rewrite <- app_assoc in *. simpl in *.
    split_and!; [done|lia|done|done].
Qed.

Lemma NoDup_all_equal {A} (l : list A) (x : A) :
  NoDup l → (∀ y, y ∈ l → y = x) → length l ≤ 1.
Proof.
  intros Hnd Hall. destruct l as [|a [|b l]]; simpl; [lia..|].
  exfalso. apply NoDup_cons in Hnd as [Hnotin _].
  apply Hnotin. rewrite (Hall a), (Hall b) by set_solver. by left.
Qed.

(** What [findAlternativePaths] returns when a shortest route exists. *)
Lemma findAlternativePaths_found count r :
  shortest = Some r →
  ∃ more,
    findAlternativePaths count = r :: more ∧
    length more ≤ count - 1 ∧
    (∀ p, p ∈ r :: more → viable p) ∧
    NoDup (r :: more).
Proof.
  intros Hr. unfold PathFinder.findAlternativePaths. rewrite Hr.
  destruct (altLoop_spec (count - 1) 1 [r] {[joinPath r]})
    as (more & -> & Hlen & Hall & Hnd).
  - intros p ->%list_elem_of_singleton.
    split; [by eapply bfsEvacuate_viable|set_solver].
  - apply NoDup_singleton.
  - exists more. split_and!; [done..|]. by apply NoDup_fmap_1 in Hnd.
Qed.

(** C4 (amended). [findAlternativePaths] returns the empty sequence
    exactly when [bfsEvacuate] returns [null].  Otherwise it returns at
    least one and at most [max 1 count] pairwise distinct viable routes,
    the first of which is the shortest route; the shortest route is
    included even for [count = 0].  When exactly one viable route exists,
    the result is that single route, whatever [count] is. *)
Theorem findAlternativePaths_contract count :
  (findAlternativePaths count = [] ↔ shortest = None) ∧
  (∀ r, shortest = Some r →
     head (findAlternativePaths count) = Some r ∧
     1 ≤ length (findAlternativePaths count) ≤ max 1 count ∧
     NoDup (findAlternativePaths count) ∧
     ∀ p, p ∈ findAlternativePaths count → viable p) ∧
  (∀ p, viable p → (∀ q, viable q → q = p) →
     findAlternativePaths count = [p]).
Proof.
  split_and!.
  - destruct shortest as [r|] eqn:Hr.
    + destruct (findAlternativePaths_found count r Hr) as (more & -> & _).
      by split.
    + unfold PathFinder.findAlternativePaths. by rewrite Hr.
  - intros r Hr.
    destruct (findAlternativePaths_found count r Hr)
      as (more & -> & Hlen & Hall & Hnd).
    split_and!; simpl; [done|lia|lia|done|done].
  - intros p [Hp _] Huniq.
    destruct (bfsEvacuate_complete adjacency exits start blockedNodes
                blockedEdges None p Hp) as [r Hr].
    destruct (findAlternativePaths_found count r Hr)
      as (more & -> & Hlen & Hall & Hnd).
    pose proof (NoDup_all_equal (r :: more) p Hnd) as Hone.
    rewrite (Huniq r) in * by (apply Hall; by left).
    destruct more as [|x more]; [done|].
    simpl in Hone. specialize (Hone (λ y Hy, Huniq y (Hall y Hy))). lia.
Qed.

End AlternativesFacts.

(** ** The hazard state manager *)

Section BlockedNodesRelevance.

Context (adjacency : gmap string (list string)).
Context (exits : gset string) (start : string).
Context (blockedNodes blockedNodes' blockedEdges : gset string).

(** The neighbour loop only tests the neighbours it is given. *)
Lemma expand_ext path current ns visited queue :
  (∀ n, n ∈ ns → n ∈ blockedNodes ↔ n ∈ blockedNodes') →
  expand blockedNodes blockedEdges path current ns visited queue =
  expand blockedNodes' blockedEdges path current ns visited queue.
Proof.
  revert visited queue.
  induction ns as [|n ns IH]; intros visited queue Hagree; [done|].
  simpl. assert (n ∈ blockedNodes ↔ n ∈ blockedNodes') as Hn
    by (apply Hagree; by left).
  assert (∀ m, m ∈ ns → m ∈ blockedNodes ↔ m ∈ blockedNodes') as Hns
    by (intros m Hm; apply Hagree; by right).
  repeat case_decide; try tauto; by apply IH.
Qed.

Lemma bfs_loop_ext fuel queue visited :
  (∀ n, n ∈ listedNodes adjacency → n ∈ blockedNodes ↔ n ∈ blockedNodes') →
  bfs_loop adjacency exits blockedNodes blockedEdges fuel queue visited =
  bfs_loop adjacency exits blockedNodes' blockedEdges fuel queue visited.
Proof.
  intros Hagree. revert queue visited.
  induction fuel as [|fuel IH]; intros queue visited; [done|].
  destruct queue as [|p queue]; simpl; [done|].
  destruct (last p) as [u|]; [|done].
  case_decide; [done|].
  rewrite expand_ext
    by (intros n Hn; by apply Hagree, (neighborsOf_listed adjacency u)).
  destruct (expand blockedNodes' blockedEdges p u (neighborsOf adjacency u)
              visited queue). apply IH.
Qed.

(** The search only asks whether the start and the listed neighbours
    are blocked. *)
Lemma bfsEvacuate_ext graph :
  (start ∈ blockedNodes ↔ start ∈ blockedNodes') →
  (∀ n, n ∈ listedNodes adjacency → n ∈ blockedNodes ↔ n ∈ blockedNodes') →
  bfsEvacuate graph adjacency exits start blockedNodes blockedEdges =
  bfsEvacuate graph adjacency exits start blockedNodes' blockedEdges.
Proof.
  intros Hs Hagree. unfold bfsEvacuate.
  rewrite bfs_loop_ext by done. repeat case_decide; tauto.
Qed.

End BlockedNodesRelevance.

Section ManagerFacts.

Context (NODES : gmap string Node).
Context (ADJACENCY : gmap string (list string)).
Context (EXITS : gset string).
Context (START_NODE : string).
Context (HAZARD_PRESETS : gmap string Preset).

Local Abbreviation _recalculate := (_recalculate NODES ADJACENCY EXITS START_NODE).
Local Abbreviation applyHazard := (applyHazard NODES ADJACENCY EXITS START_NODE).
Local Abbreviation removeHazard := (removeHazard NODES ADJACENCY EXITS START_NODE).
Local Abbreviation toggleHazard := (toggleHazard NODES ADJACENCY EXITS START_NODE).
Local Abbreviation resetAll := (resetAll NODES ADJACENCY EXITS START_NODE).
Local Abbreviation applyPreset :=
  (applyPreset NODES ADJACENCY EXITS START_NODE HAZARD_PRESETS).
Local Abbreviation perform :=
  (perform NODES ADJACENCY EXITS START_NODE HAZARD_PRESETS).
Local Abbreviation runOperation :=
  (runOperation NODES ADJACENCY EXITS START_NODE HAZARD_PRESETS).
Local Abbreviation routeOf := (routeOf NODES ADJACENCY EXITS START_NODE).
Local Abbreviation absentFromStore :=
  (absentFromStore NODES ADJACENCY EXITS START_NODE).

(** *** The start node under the toggle interface *)

Lemma toggleHazard_start st : toggleHazard START_NODE st = st.
Proof. unfold HazardManager.toggleHazard. by rewrite decide_True. Qed.

Lemma toggleHazard_keeps_start_clear nodeId st :
  START_NODE ∉ hazardNodes st → START_NODE ∉ hazardNodes (toggleHazard nodeId st).
Proof.
  intros Hs. unfold HazardManager.toggleHazard.
  repeat case_decide; simpl; set_solver.
Qed.

Lemma perform_keeps_start_clear a st :
  isToggleAction a = true →
  START_NODE ∉ hazardNodes st → START_NODE ∉ hazardNodes (perform st a).
Proof.
  destruct a as [nodeId|kind| |presetName]; simpl; intros Ha Hs.
  - by apply toggleHazard_keeps_start_clear.
  - done.
  - set_solver.
  - discriminate.
Qed.

(** C6. [toggleHazard] called with the start node returns the state as
    it was, so the hazard state ([hazardNodes], [hazardEdges],
    [hazardTypes]) does not change; and after any sequence of toggles,
    hazard-kind selections and resets from the initial state the start
    node is not in [hazardNodes]. *)
Theorem toggleHazard_start_unchanged st acts :
  toggleHazard START_NODE st = st ∧
  hazardStateOf (toggleHazard START_NODE st) = hazardStateOf st ∧
  (forallb isToggleAction acts = true →
   START_NODE ∉ hazardNodes (foldl perform initialState acts)).
Proof.
  rewrite toggleHazard_start. split_and!; [done..|].
  intros Hacts.
  assert (START_NODE ∉ hazardNodes initialState) as Hinit by set_solver.
  revert Hacts Hinit. generalize initialState.
  induction acts as [|a acts IH]; intros st0 Hacts Hst0; [done|].
  simpl in *. apply andb_true_iff in Hacts as [Ha Hacts].
  apply IH; [done|]. by apply perform_keeps_start_clear.
Qed.

(** *** Labels and the stored route *)

Lemma displayLabel_unknown nodeId :
  NODES !! nodeId = None → displayLabel NODES nodeId = nodeId.
Proof. intros H. unfold displayLabel. by rewrite H. Qed.

Lemma routeOf_recalculate st : routeOf (_recalculate st) = routeOf st.
Proof. reflexivity. Qed.

Lemma currentPath_recalculate st : currentPath (_recalculate st) = routeOf st.
Proof. reflexivity. Qed.

End ManagerFacts.

(** ** More about the path finder *)

Section WeakeningBoth.

Context (adjacency : gmap string (list string)).
Context (exits : gset string) (start : string).
Context (blockedNodes blockedNodes' blockedEdges blockedEdges' : gset string).
Context (Hnodes : blockedNodes ⊆ blockedNodes').
Context (Hedges : blockedEdges ⊆ blockedEdges').

Lemma traversable_fewer_hazards p :
  traversable adjacency blockedNodes' blockedEdges' p →
  traversable adjacency blockedNodes blockedEdges p.
Proof.
  induction p as [|a [|b r] IH]; [done..|].
  intros [(? & ? & ?) Ht]. split; [|by apply IH].
  split_and!; [done|set_solver|set_solver].
Qed.

Lemma validRoute_fewer_hazards p :
  validRoute adjacency exits start blockedNodes' blockedEdges' p →
  validRoute adjacency exits start blockedNodes blockedEdges p.
Proof.
  intros (? & ? & ? & ?). split_and!; [done|set_solver| |done].
  by apply traversable_fewer_hazards.
Qed.

End WeakeningBoth.

Section MoreBfsFacts.

Context (adjacency : gmap string (list string)).
Context (exits : gset string) (start : string).
Context (blockedNodes blockedEdges : gset string).

Local Abbreviation step := (step adjacency blockedNodes blockedEdges).
Local Abbreviation traversable := (traversable adjacency blockedNodes blockedEdges).
Local Abbreviation validRoute :=
  (validRoute adjacency exits start blockedNodes blockedEdges).
Local Abbreviation search :=
  (λ graph, bfsEvacuate graph adjacency exits start blockedNodes blockedEdges).

Lemma bfsEvacuate_valid graph r : search graph = Some r → validRoute r.
Proof.
  intros (? & ? & ? & _ & ? & _)%bfsEvacuate_found. by split_and!.
Qed.

Lemma bfsEvacuate_min_length graph r q :
  search graph = Some r → validRoute q → length r ≤ length q.
Proof.
  intros (Hs & _ & _ & _ & _ & Hmin)%bfsEvacuate_found
         (Hqh & _ & Hqt & e & Hql & Hqx).
  pose proof (traversable_walk adjacency start blockedNodes blockedEdges
                q e Hqh Hs Hqt Hql) as Hw.
  specialize (Hmin _ _ Hw Hqx).
  destruct q; [discriminate|]. simpl in *. lia.
Qed.

Lemma traversable_take p n : traversable p → traversable (take n p).
Proof.
  revert n. induction p as [|a [|b r] IH]; intros n Ht.
  - by destruct n.
  - by destruct n as [|[|n]].
  - destruct n as [|[|n]]; [done..|].
    destruct Ht as [Hab Ht]. split; [done|]. apply (IH (S n) Ht).
Qed.

(** An exit can only be the last node of the returned route. *)
Lemma bfsEvacuate_exit_is_last graph r i u :
  search graph = Some r → r !! i = Some u → u ∈ exits → S i = length r.
Proof.
  intros (Hs & Hh & Ht & _ & _ & Hmin)%bfsEvacuate_found Hi Hu.
  pose proof (lookup_lt_Some _ _ _ Hi) as Hlt.
  assert (Route.walk adjacency start blockedNodes blockedEdges i u) as Hw.
  { replace i with (length (take (S i) r) - 1)
      by (rewrite length_take; lia).
    apply traversable_walk; [|done|by apply traversable_take|].
    - by destruct r.
    - rewrite last_lookup, length_take.
      replace (pred (S i `min` length r)) with i by lia.
      by rewrite lookup_take_lt by lia. }
  specialize (Hmin _ _ Hw Hu). lia.
Qed.

(** X1. [bfsEvacuate] returns [null] exactly when no valid route exists
    under the given hazards: a blocked start, or no sequence of
    traversable steps from the start to an exit. *)
Theorem bfsEvacuate_null_iff_no_route graph :
  search graph = None ↔ ∀ q, ¬ validRoute q.
Proof.
  split.
  - intros Hnone q. by apply (bfsEvacuate_not_found _ _ _ _ _ graph).
  - intros Hno. destruct (search graph) as [r|] eqn:Hrun; [|done].
    destruct (Hno r). by apply (bfsEvacuate_valid graph).
Qed.

(** X2. The returned route stops at the first exit it reaches: an exit
    occurs on it only as its last node. *)
Theorem bfsEvacuate_only_last_is_exit graph r i u :
  search graph = Some r → r !! i = Some u → u ∈ exits →
  S i = length r ∧ last r = Some u.
Proof.
  intros Hrun Hi Hu.
  pose proof (bfsEvacuate_exit_is_last graph r i u Hrun Hi Hu) as Hlen.
  split; [done|]. rewrite last_lookup, <- Hlen. done.
Qed.

(** X4. When every exit is a blocked node there is no route. *)
Theorem bfsEvacuate_all_exits_blocked graph :
  exits ⊆ blockedNodes → search graph = None.
Proof.
  intros Hsub. destruct (search graph) as [r|] eqn:Hrun; [|done].
  apply bfsEvacuate_found in Hrun
    as (Hs & Hh & Ht & _ & (e & Hl & He) & _).
  destruct (traversable_unblocked adjacency blockedNodes blockedEdges
              r start Hh Hs Ht e).
  - by apply last_Some_elem_of.
  - by apply Hsub.
Qed.

Lemma edgeKey_swap a b : edgeKey a b = edgeKey b a.
Proof.
  unfold edgeKey. destruct (sort_pair_swap a b) as [-> | ->]; reflexivity.
Qed.

(** X5. A blocked edge is blocked in both directions: if the key of the
    pair [a], [b] is in [blockedEdges], the returned route never goes
    from [a] straight to [b], nor from [b] straight to [a]. *)
Theorem bfsEvacuate_blocked_edge_both_ways graph r a b i u v :
  edgeKey a b ∈ blockedEdges →
  search graph = Some r → r !! i = Some u → r !! S i = Some v →
  ¬ (u = a ∧ v = b) ∧ ¬ (u = b ∧ v = a).
Proof.
  intros Hblocked (_ & _ & Ht & _)%bfsEvacuate_found Hu Hv.
  destruct (traversable_steps adjacency blockedNodes blockedEdges
              r i u v Ht Hu Hv) as (_ & _ & Hkey).
  split; intros [-> ->]; [done|]. by rewrite edgeKey_swap in Hkey.
Qed.

End MoreBfsFacts.


Section HazardComparison.

Context (adjacency : gmap string (list string)).
Context (exits : gset string) (start : string).
Context (blockedNodes blockedNodes' blockedEdges blockedEdges' : gset string).

(** X3. Fewer hazards never lose or lengthen the route: if a route is
    found under the hazards [blockedNodes'], [blockedEdges'], then under
    any smaller sets of blocked nodes and edges a route is found too, and
    it has no more edges. *)
Theorem bfsEvacuate_fewer_hazards graph r' :
  blockedNodes ⊆ blockedNodes' → blockedEdges ⊆ blockedEdges' →
  bfsEvacuate graph adjacency exits start blockedNodes' blockedEdges'
    = Some r' →
  ∃ r, bfsEvacuate graph adjacency exits start blockedNodes blockedEdges
         = Some r ∧
       edgeCount r ≤ edgeCount r'.
Proof.
  intros Hn He Hrun'. apply bfsEvacuate_valid in Hrun'.
  apply (validRoute_fewer_hazards _ _ _ _ _ _ _ Hn He) in Hrun'.
  destruct (bfsEvacuate_complete adjacency exits start blockedNodes
              blockedEdges graph r' Hrun') as [r Hrun].
  exists r. split; [done|].
  pose proof (bfsEvacuate_min_length _ _ _ _ _ graph r r' Hrun Hrun').
  unfold edgeCount. lia.
Qed.

Lemma neighbor_key_listed u v :
  v ∈ neighborsOf adjacency u → edgeKey u v ∈ listedEdgeKeys adjacency.
Proof.
  unfold neighborsOf, listedEdgeKeys.
  destruct (adjacency !! u) as [l|] eqn:E; simpl; intros Hv;
    [|by apply elem_of_nil in Hv].
  apply elem_of_union_list. exists (list_to_set (edgeKey u <$> l)).
  split.
  - apply list_elem_of_fmap. exists (u, l). split; [done|].
    by apply elem_of_map_to_list.
  - apply elem_of_list_to_set, list_elem_of_fmap. by exists v.
Qed.

Lemma expand_edges_ext path current ns visited queue :
  (∀ n, n ∈ ns →
     edgeKey current n ∈ blockedEdges ↔ edgeKey current n ∈ blockedEdges') →
  expand blockedNodes blockedEdges path current ns visited queue =
  expand blockedNodes blockedEdges' path current ns visited queue.
Proof.
  revert visited queue.
  induction ns as [|n ns IH]; intros visited queue Hagree; [done|].
  simpl.
  assert (edgeKey current n ∈ blockedEdges ↔
          edgeKey current n ∈ blockedEdges') as Hn
    by (apply Hagree; by left).
  assert (∀ m, m ∈ ns → edgeKey current m ∈ blockedEdges ↔
                         edgeKey current m ∈ blockedEdges') as Hns
    by (intros m Hm; apply Hagree; by right).
  repeat case_decide; try tauto; by apply IH.
Qed.

Lemma bfs_loop_edges_ext fuel queue visited :
  (∀ k, k ∈ listedEdgeKeys adjacency → k ∈ blockedEdges ↔ k ∈ blockedEdges') →
  bfs_loop adjacency exits blockedNodes blockedEdges fuel queue visited =
  bfs_loop adjacency exits blockedNodes blockedEdges' fuel queue visited.
Proof.
  intros Hagree. revert queue visited.
  induction fuel as [|fuel IH]; intros queue visited; [done|].
  destruct queue as [|p queue]; simpl; [done|].
  destruct (last p) as [u|]; [|done].
  case_decide; [done|].
  rewrite expand_edges_ext
    by (intros n Hn; by apply Hagree, neighbor_key_listed).
  destruct (expand blockedNodes blockedEdges' p u (neighborsOf adjacency u)
              visited queue). apply IH.
Qed.

(** X6. The search reads the hazards only at the start node, at the
    listed neighbours and at the keys of listed pairs: two hazard
    configurations that agree there give the same result. *)
Theorem bfsEvacuate_reads_listed_only graph :
  (start ∈ blockedNodes ↔ start ∈ blockedNodes') →
  blockedNodes ∩ listedNodes adjacency = blockedNodes' ∩ listedNodes adjacency →
  blockedEdges ∩ listedEdgeKeys adjacency
    = blockedEdges' ∩ listedEdgeKeys adjacency →
  bfsEvacuate graph adjacency exits start blockedNodes blockedEdges =
  bfsEvacuate graph adjacency exits start blockedNodes' blockedEdges'.
Proof.
  intros Hs Hn He.
  rewrite <- (bfsEvacuate_ext adjacency exits start blockedNodes blockedNodes'
                blockedEdges' graph Hs) by set_solver.
  unfold bfsEvacuate. rewrite bfs_loop_edges_ext by set_solver. done.
Qed.

End HazardComparison.

(** *** Exactness of edge keys *)

Lemma joined_pair_inj x x' y y' :
  hasColon x = false → hasColon x' = false →
  String.concat "::" [x; y] = String.concat "::" [x'; y'] →
  x = x' ∧ y = y'.
Proof.
  change (String.concat "::" [x; y]) with (x +:+ "::" +:+ y).
  change (String.concat "::" [x'; y']) with (x' +:+ "::" +:+ y').
  revert x'.
  induction x as [|c x IH]; intros [|c' x'] Hx Hx' Heq;
    repeat first
      [ progress change ("" +:+ ?z) with z in Heq
      | progress change (String ?k ?w +:+ ?z) with (String k (w +:+ z)) in Heq ];
    simpl in Hx, Hx'.
  - by injection Heq as ->.
  - injection Heq as <- _. by rewrite Ascii.eqb_refl in Hx'.
  - injection Heq as -> _. by rewrite Ascii.eqb_refl in Hx.
  - injection Heq as <- Heq.
    destruct (Ascii.eqb c ":"); [done|].
    destruct (IH x' Hx Hx' Heq) as [-> ->]. done.
Qed.

(** X7. For identifiers that contain no colon, the key determines the
    unordered pair: two pairs have the same key only if they are the
    same pair, possibly swapped. *)
Theorem edgeKey_exact a b c d :
  hasColon a = false → hasColon b = false →
  hasColon c = false → hasColon d = false →
  edgeKey a b = edgeKey c d →
  (a = c ∧ b = d) ∨ (a = d ∧ b = c).
Proof.
  intros Ha Hb Hc Hd. unfold edgeKey, sort_pair.
  destruct (String.ltb b a), (String.ltb d c); intros Heq;
    apply joined_pair_inj in Heq as [-> ->]; auto.
Qed.

(** Identifiers with colons can collide. *)
Example edgeKey_collision : edgeKey "a::b" "c" = edgeKey "a" "b::c".
Proof. reflexivity. Qed.


(** ** More about the alternative routes *)

Section MoreAlternativesFacts.

Context (adjacency : gmap string (list string)).
Context (exits : gset string) (start : string).
Context (blockedNodes blockedEdges : gset string).

Local Abbreviation shortest :=
  (bfsEvacuate None adjacency exits start blockedNodes blockedEdges).
Local Abbreviation tryInterior :=
  (tryInterior adjacency exits start blockedNodes blockedEdges).
Local Abbreviation altLoop :=
  (altLoop adjacency exits start blockedNodes blockedEdges).
Local Abbreviation findAlternativePaths :=
  (findAlternativePaths adjacency exits start blockedNodes blockedEdges).

Lemma altLoop_S iters i paths usedPaths :
  altLoop (S iters) i paths usedPaths =
    match paths !! (i - 1) with
    | None => paths
    | Some prevPath =>
        match tryInterior (interiorNodes prevPath) usedPaths with
        | Some alt =>
            altLoop iters (S i) (paths ++ [alt]) ({[joinPath alt]} ∪ usedPaths)
        | None => paths
        end
    end.
Proof. reflexivity. Qed.

(** An accepted alternative is the shortest route found with one
    interior node of the previous route blocked in addition. *)
Lemma tryInterior_Some_node interior usedPaths alt :
  tryInterior interior usedPaths = Some alt →
  ∃ node, node ∈ interior ∧
    bfsEvacuate None adjacency exits start (blockedNodes ∪ {[node]})
      blockedEdges = Some alt.
Proof.
  induction interior as [|node rest IH]; simpl; [done|].
  destruct (bfsEvacuate None adjacency exits start (blockedNodes ∪ {[node]})
              blockedEdges) as [alt'|] eqn:Hrun.
  - destruct (decide (joinPath alt' ∈ usedPaths)).
    + intros (n & ? & ?)%IH. exists n. split; [by right|done].
    + intros [= ->]. exists node. split; [by left|done].
  - intros (n & ? & ?)%IH. exists n. split; [by right|done].
Qed.

Lemma tryInterior_avoids prevPath usedPaths alt :
  tryInterior (interiorNodes prevPath) usedPaths = Some alt →
  avoidsInteriorOf prevPath alt.
Proof.
  intros (node & Hin & Hrun)%tryInterior_Some_node.
  exists node. split; [done|]. intros Hon.
  apply bfsEvacuate_found in Hrun as (Hs & Hh & Ht & _).
  destruct (traversable_unblocked adjacency (blockedNodes ∪ {[node]})
              blockedEdges alt start Hh Hs Ht node Hon).
  set_solver.
Qed.

Lemma altLoop_chain iters i paths usedPaths :
  length paths = i → 0 < i →
  (∀ j p p', paths !! j = Some p → paths !! S j = Some p' →
     avoidsInteriorOf p p') →
  ∀ j p p',
    altLoop iters i paths usedPaths !! j = Some p →
    altLoop iters i paths usedPaths !! S j = Some p' →
    avoidsInteriorOf p p'.
Proof.
  revert i paths usedPaths.
  induction iters as [|iters IH]; intros i paths usedPaths Hlen Hi Hchain;
    [done|].
  rewrite altLoop_S.
  destruct (paths !! (i - 1)) as [prevPath|] eqn:Hprev; [|done].
  destruct (tryInterior (interiorNodes prevPath) usedPaths) as [alt|] eqn:Htry;
    [|done].
  apply IH; [rewrite length_app; simpl; lia|lia|].
  intros j p p' Hp Hp'.
  destruct (decide (S j < length paths)) as [Hlt|Hge].
  - rewrite lookup_app_l in Hp, Hp' by lia. by eapply Hchain.
  - pose proof (lookup_lt_Some _ _ _ Hp') as Hbound.
    rewrite length_app in Hbound. simpl in Hbound.
    assert (j = i - 1) as -> by lia.
    rewrite lookup_app_l in Hp by lia.
    rewrite lookup_app_r in Hp' by lia.
    replace (S (i - 1) - length paths) with 0 in Hp' by lia.
    simpl in Hp'. simplify_eq. by eapply tryInterior_avoids.
Qed.

Lemma altLoop_extends iters i paths usedPaths :
  paths `prefix_of` altLoop iters i paths usedPaths.
Proof.
  revert i paths usedPaths.
  induction iters as [|iters IH]; intros i paths usedPaths; [done|].
  rewrite altLoop_S.
  destruct (paths !! (i - 1)) as [prevPath|]; [|done].
  destruct (tryInterior (interiorNodes prevPath) usedPaths) as [alt|]; [|done].
  etrans; [|apply IH]. by apply prefix_app_r.
Qed.

Lemma altLoop_prefix iters i paths usedPaths :
  altLoop iters i paths usedPaths
    `prefix_of` altLoop (S iters) i paths usedPaths.
Proof.
  revert i paths usedPaths.
  induction iters as [|iters IH]; intros i paths usedPaths.
  - apply altLoop_extends.
  - rewrite (altLoop_S (S iters)), (altLoop_S iters).
    destruct (paths !! (i - 1)) as [prevPath|]; [|done].
    destruct (tryInterior (interiorNodes prevPath) usedPaths) as [alt|];
      [|done].
    apply IH.
Qed.

(** X8. Every route after the first one leaves out an interior node of
    the route just before it in the result. *)
Theorem findAlternativePaths_avoids_previous count j p p' :
  findAlternativePaths count !! j = Some p →
  findAlternativePaths count !! S j = Some p' →
  avoidsInteriorOf p p'.
Proof.
  unfold PathFinder.findAlternativePaths.
  destruct shortest as [r|]; [|done].
  apply altLoop_chain; [done|lia|]. by intros [|k] ? ? ? ?.
Qed.

(** X9. No route in the result has fewer edges than the first one. *)
Theorem findAlternativePaths_first_is_shortest count r p :
  shortest = Some r → p ∈ findAlternativePaths count →
  edgeCount r ≤ edgeCount p.
Proof.
  intros Hr Hp.
  destruct (findAlternativePaths_found adjacency exits start blockedNodes
              blockedEdges count r Hr) as (more & Heq & _ & Hall & _).
  rewrite Heq in Hp. destruct (Hall p Hp) as [Hvalid _].
  pose proof (bfsEvacuate_min_length _ _ _ _ _ None r p Hr Hvalid).
  unfold edgeCount. lia.
Qed.

(** X10. Asking for more routes only extends the result: the routes
    returned for [count] are the first routes returned for any larger
    count. *)
Theorem findAlternativePaths_prefix count count' :
  count ≤ count' →
  findAlternativePaths count `prefix_of` findAlternativePaths count'.
Proof.
  intros Hle. unfold PathFinder.findAlternativePaths.
  destruct shortest as [r|]; [|done].
  assert (count - 1 ≤ count' - 1) as Hle' by lia.
  induction Hle' as [|n Hn IH]; [done|].
  etrans; [exact IH|]. apply altLoop_prefix.
Qed.

(** X11. A shortest route of at most two nodes has no interior node to
    block, so it is the only route returned. *)
Theorem findAlternativePaths_direct_route count r :
  shortest = Some r → length r ≤ 2 → findAlternativePaths count = [r].
Proof.
  intros Hr Hlen. unfold PathFinder.findAlternativePaths. rewrite Hr.
  destruct (count - 1) as [|n]; [done|].
  rewrite altLoop_S. simpl.
  unfold interiorNodes. replace (length r - 2) with 0 by lia. done.
Qed.

End MoreAlternativesFacts.


(** ** More about the hazard manager and what the page shows *)

Section MoreManagerFacts.

Context (NODES : gmap string Node).
Context (ADJACENCY : gmap string (list string)).
Context (EXITS : gset string).
Context (START_NODE : string).
Context (HAZARD_PRESETS : gmap string Preset).

Local Abbreviation _recalculate := (_recalculate NODES ADJACENCY EXITS START_NODE).
Local Abbreviation applyHazard := (applyHazard NODES ADJACENCY EXITS START_NODE).
Local Abbreviation removeHazard := (removeHazard NODES ADJACENCY EXITS START_NODE).
Local Abbreviation toggleHazard := (toggleHazard NODES ADJACENCY EXITS START_NODE).
Local Abbreviation resetAll := (resetAll NODES ADJACENCY EXITS START_NODE).
Local Abbreviation applyPreset :=
  (applyPreset NODES ADJACENCY EXITS START_NODE HAZARD_PRESETS).
Local Abbreviation perform :=
  (perform NODES ADJACENCY EXITS START_NODE HAZARD_PRESETS).
Local Abbreviation routeOf := (routeOf NODES ADJACENCY EXITS START_NODE).
Local Abbreviation routeCached := (routeCached NODES ADJACENCY EXITS START_NODE).
Local Abbreviation sessionState :=
  (sessionState NODES ADJACENCY EXITS START_NODE HAZARD_PRESETS).
Local Abbreviation getNodeStatus := (getNodeStatus EXITS START_NODE).
Local Abbreviation routeStatus := (routeStatus NODES).
Local Abbreviation validUnder :=
  (λ st, validRoute ADJACENCY EXITS START_NODE (hazardNodes st) (hazardEdges st)).

(** *** The stored route *)

Lemma routeCached_recalculate st : routeCached (_recalculate st).
Proof. by split. Qed.

Lemma routeCached_perform a st :
  routeCached st → routeCached (perform st a).
Proof.
  intros Hst. destruct a as [nodeId|kind| |presetName]; simpl.
  - unfold HazardManager.toggleHazard.
    repeat case_decide; [done|apply routeCached_recalculate..].
  - done.
  - apply routeCached_recalculate.
  - unfold HazardManager.applyPreset.
    destruct (HAZARD_PRESETS !! presetName); [|done].
    apply routeCached_recalculate.
Qed.

Lemma routeCached_session acts : routeCached (sessionState acts).
Proof.
  unfold Presenter.sessionState.
  pose proof (routeCached_recalculate initialState) as Hinit.
  revert Hinit. generalize (_recalculate initialState).
  induction acts as [|a acts IH]; intros st Hst; [done|].
  simpl. by apply IH, routeCached_perform.
Qed.

Lemma routeCached_failed st :
  routeCached st →
  evacuationFailed st = true ↔ ∀ q, ¬ validUnder st q.
Proof.
  intros [Hpath Hflag]. rewrite Hflag, Hpath. unfold HazardManager.routeOf.
  destruct (bfsEvacuate _ _ _ _ _ _) as [r|] eqn:Hrun.
  - split; [done|]. intros Hno. destruct (Hno r).
    by apply (bfsEvacuate_valid _ _ _ _ _ (Some NODES)).
  - split; [|done]. intros _ q.
    by apply (bfsEvacuate_not_found _ _ _ _ _ (Some NODES)).
Qed.

(** X12. After [init] and any sequence of user actions, the stored
    [currentPath] is the route for the stored hazards, and
    [evacuationFailed] is set exactly when no valid route exists under
    them. *)
Theorem session_route_is_current acts :
  currentPath (sessionState acts) = routeOf (sessionState acts) ∧
  (evacuationFailed (sessionState acts) = true ↔
   ∀ q, ¬ validUnder (sessionState acts) q).
Proof.
  pose proof (routeCached_session acts) as Hc.
  split; [apply Hc|]. by apply routeCached_failed.
Qed.

(** X13. After [init] and any sequence of user actions, the status bar
    never shows the idle message [CLEAR]; it shows [FAILED] exactly when
    no valid route exists, and otherwise [EVACUATE] with the label of the
    exit that ends the stored route. *)
Theorem session_status_bar acts :
  (routeStatus (sessionState acts)).1 ≠ "CLEAR" ∧
  (routeStatus (sessionState acts) = ("FAILED", "danger") ↔
   ∀ q, ¬ validUnder (sessionState acts) q) ∧
  (∀ r, currentPath (sessionState acts) = Some r →
     ∃ e, last r = Some e ∧ e ∈ EXITS ∧
          routeStatus (sessionState acts) =
            ("EVACUATE → " +:+ displayLabel NODES e, "safe")).
Proof.
  pose proof (routeCached_session acts) as Hc.
  pose proof (routeCached_failed _ Hc) as Hfail.
  destruct Hc as [Hpath Hflag].
  unfold Presenter.routeStatus. rewrite Hflag in *.
  destruct (currentPath (sessionState acts)) as [r|] eqn:Hr.
  - symmetry in Hpath. unfold HazardManager.routeOf in Hpath.
    apply bfsEvacuate_found in Hpath
      as (_ & _ & _ & _ & (e & Hl & He) & _).
    rewrite Hl. simpl. split; [|split].
    + discriminate.
    + split; [discriminate|]. intros Hno. by apply Hfail in Hno.
    + intros r' [= <-]. by exists e.
  - split; [discriminate|]. split; [|done].
    split; [intros _; by apply Hfail|done].
Qed.

(** X14. After [init] and any sequence of user actions, the first node of
    the stored route is shown as [start], also when it is the only node
    of the route; of the later nodes, the last one is shown as [exit] and
    all those before it as [path].  No node of the stored route is shown
    as [hazard], [exit-blocked] or [safe]. *)
Theorem session_route_node_status acts r i nodeId :
  currentPath (sessionState acts) = Some r → r !! i = Some nodeId →
  getNodeStatus nodeId (sessionState acts) =
    match i with
    | 0 => "start"
    | S _ => if decide (S i = length r) then "exit" else "path"
    end.
Proof.
  intros Hr Hi. destruct (routeCached_session acts) as [Hpath _].
  rewrite Hr in Hpath. symmetry in Hpath.
  unfold HazardManager.routeOf in Hpath.
  pose proof Hpath as (Hs & Hh & Ht & Hnd & (e & Hl & He) & _)%bfsEvacuate_found.
  unfold Presenter.getNodeStatus.
  rewrite head_lookup in Hh.
  destruct i as [|i].
  { rewrite Hh in Hi. injection Hi as <-. by rewrite decide_True. }
  assert (nodeId ≠ START_NODE) as Hne.
  { intros ->. by pose proof (NoDup_lookup _ _ _ _ Hnd Hh Hi). }
  assert (nodeId ∉ hazardNodes (sessionState acts)) as Hfree.
  { apply (traversable_unblocked ADJACENCY _ _ r START_NODE
             ltac:(by rewrite head_lookup) Hs Ht).
    by eapply list_elem_of_lookup_2. }
  rewrite decide_False by done.
  rewrite (decide_False (P := _ ∧ _)) by tauto.
  destruct (decide (S (S i) = length r)) as [Hlast|Hmid].
  - rewrite last_lookup, <- Hlast in Hl. simpl in Hl.
    rewrite Hi in Hl. injection Hl as <-. by rewrite decide_True.
  - rewrite decide_False.
    + rewrite decide_False by done. rewrite Hr.
      rewrite bool_decide_eq_true_2; [done|].
      by eapply list_elem_of_lookup_2.
    + intros Hex.
      by pose proof (bfsEvacuate_exit_is_last _ _ _ _ _ _ _ _ _
                       Hpath Hi Hex).
Qed.

(** *** Presets *)

Lemma presetNodes_effect ns st :
  hazardNodes (foldl presetNode st ns) = list_to_set ns ∪ hazardNodes st ∧
  hazardEdges (foldl presetNode st ns) = hazardEdges st ∧
  selectedHazard (foldl presetNode st ns) = selectedHazard st ∧
  ∀ n, hazardTypes (foldl presetNode st ns) !! n =
         if decide (n ∈ ns) then Some "fire" else hazardTypes st !! n.
Proof.
  revert st. induction ns as [|a ns IH]; intros st.
  - simpl. split_and!; [set_solver|done..].
  - simpl. destruct (IH (presetNode st a)) as (Hn & He & Hk & Ht).
    rewrite Hn, He, Hk. simpl. split_and!; [set_solver|done|done|].
    intros n. rewrite Ht. simpl.
    destruct (decide (n = a)) as [->|Hna].
    + rewrite lookup_insert_eq, (decide_True (P := a ∈ a :: ns)) by by left.
      by case_decide.
    + rewrite lookup_insert_ne by done.
      repeat case_decide; set_solver.
Qed.

Lemma presetEdges_effect es st :
  hazardNodes (foldl presetEdge st es) = hazardNodes st ∧
  hazardEdges (foldl presetEdge st es) =
    list_to_set ((λ e, edgeKey e.1 e.2) <$> es) ∪ hazardEdges st ∧
  selectedHazard (foldl presetEdge st es) = selectedHazard st ∧
  hazardTypes (foldl presetEdge st es) = hazardTypes st.
Proof.
  revert st. induction es as [|e es IH]; intros st.
  - simpl. split_and!; [done|set_solver|done|done].
  - simpl. destruct (IH (presetEdge st e)) as (Hn & He & Hk & Ht).
    rewrite Hn, He, Hk, Ht. simpl. split_and!; [done|set_solver|done|done].
Qed.

End MoreManagerFacts.


(** ** The graph builder *)

Section BuilderFacts.

Import Builder.

Lemma joins_swap a b e : joins a b e ↔ joins b a e.
Proof. unfold joins. tauto. Qed.

Lemma joins_edges a b e e' : e.1 = a → e.2 = b → joins a b e' ↔ joins e'.1 e'.2 e.
Proof. unfold joins. intros <- <-. destruct e, e'; simpl. naive_solver. Qed.

Lemma joins_pair a b e : joins a b e ↔ e = (a, b) ∨ e = (b, a).
Proof. unfold joins. destruct e; simpl. naive_solver. Qed.

(** *** The adjacency table built from the edge list *)

Lemma emptyLists_lookup (ids : list string)
    (adj0 : gmap string (list string)) (a : string) :
  foldl (λ adj id, <[id := []]> adj) adj0 ids !! a =
    if decide (a ∈ ids) then Some [] else adj0 !! a.
Proof.
  revert adj0. induction ids as [|x ids IH]; intros adj0.
  - reflexivity.
  - simpl foldl. rewrite IH. destruct (decide (a = x)) as [->|Hne].
    + rewrite lookup_insert_eq, (decide_True (P := x ∈ x :: ids)) by by left.
      by case_decide.
    + rewrite lookup_insert_ne by done. repeat case_decide; set_solver.
Qed.

Lemma addEdge_is_Some adj e a :
  is_Some (addEdge adj e !! a) ↔ is_Some (adj !! a).
Proof.
  unfold addEdge. destruct e as [x y]. simpl. rewrite !lookup_alter.
  repeat case_decide; subst; by rewrite ?fmap_is_Some.
Qed.

Lemma addEdge_neighbors adj e a b :
  b ∈ neighborsOf (addEdge adj e) a ↔
  b ∈ neighborsOf adj a ∨ (is_Some (adj !! a) ∧ joins a b e).
Proof.
  unfold addEdge, neighborsOf, joins. destruct e as [x y]. simpl.
  rewrite !lookup_alter.
  repeat case_decide; subst; destruct (adj !! _) as [l|] eqn:Hl; simpl;
    rewrite ?elem_of_app, ?list_elem_of_singleton, ?is_Some_alt;
    naive_solver.
Qed.

Lemma addEdges_neighbors es adj a b :
  b ∈ neighborsOf (foldl addEdge adj es) a ↔
  b ∈ neighborsOf adj a ∨ (is_Some (adj !! a) ∧ Exists (joins a b) es).
Proof.
  revert adj. induction es as [|e es IH]; intros adj; simpl.
  - rewrite Exists_nil. tauto.
  - rewrite IH, addEdge_neighbors, addEdge_is_Some, Exists_cons. tauto.
Qed.

Lemma builderAdjacency_neighbors b u v :
  v ∈ neighborsOf (builderAdjacency b) u ↔
  u ∈ nodeIds (nodes b) ∧ Exists (joins u v) (edges b).
Proof.
  unfold builderAdjacency. rewrite addEdges_neighbors.
  unfold neighborsOf at 1. rewrite emptyLists_lookup, lookup_empty.
  case_decide as Hu; simpl.
  - split; [intros [[]%elem_of_nil|[_ ?]]; done|]. intros [_ ?]. right.
    split; [by eexists|done].
  - split; [|tauto]. intros [[]%elem_of_nil|[[? [=]] _]].
Qed.

(** X19. In the adjacency table that [runBuilderBFS] builds, [v] is
    listed under [u] exactly when [u] is a node of the builder and some
    edge joins [u] and [v], in either order.  So between nodes of the
    builder the table is symmetric. *)
Theorem builderAdjacency_is_undirected b u v :
  (v ∈ neighborsOf (builderAdjacency b) u ↔
   u ∈ nodeIds (nodes b) ∧ ((u, v) ∈ edges b ∨ (v, u) ∈ edges b)) ∧
  (u ∈ nodeIds (nodes b) → v ∈ nodeIds (nodes b) →
   v ∈ neighborsOf (builderAdjacency b) u ↔
   u ∈ neighborsOf (builderAdjacency b) v).
Proof.
  split.
  - rewrite builderAdjacency_neighbors, Exists_exists.
    split.
    + intros [Hu (e & He & [->| ->]%joins_pair)]; auto.
    + intros [Hu [He|He]]; (split; [done|]); eexists; (split; [exact He|]);
        apply joins_pair; auto.
  - intros Hu Hv. rewrite !builderAdjacency_neighbors.
    split; intros [_ Hex]; (split; [done|]);
      eapply Exists_impl; [exact Hex| |exact Hex|];
      intros e; by rewrite joins_swap.
Qed.

(** X20. When [runBuilderBFS] reports a path, the path begins at the
    first node of type start or control (in insertion order), ends at a
    node of type exit, repeats no node, and every two consecutive nodes
    are joined by an edge of the builder, in either order. *)
Theorem runBuilderBFS_path b path :
  runBuilderBFS b = PathOk path →
  head path = head (starts b) ∧
  (∃ e, last path = Some e ∧ e ∈ exits b) ∧
  NoDup path ∧
  ∀ i u v, path !! i = Some u → path !! S i = Some v →
    (u, v) ∈ edges b ∨ (v, u) ∈ edges b.
Proof.
  unfold runBuilderBFS.
  destruct (starts b) as [|start rest]; [done|].
  case_decide; [done|].
  destruct (bfsEvacuate _ _ _ _ _ _) as [r|] eqn:Hrun; [|done].
  intros [= ->].
  apply bfsEvacuate_found in Hrun as (_ & Hh & Ht & Hnd & He & _).
  split_and!; [done|done|done|].
  intros i u v Hu Hv.
  destruct (traversable_steps _ _ _ _ _ _ _ Ht Hu Hv) as (Hn & _).
  apply builderAdjacency_neighbors in Hn as [_ Hex].
  apply Exists_exists in Hex as (e & He' & [->| ->]%joins_pair); auto.
Qed.

(** *** The shape kept by the click handler *)

Lemma distinctEdges_snoc es e :
  distinctEdges es → ¬ Exists (joins e.1 e.2) es → distinctEdges (es ++ [e]).
Proof.
  induction es as [|e' es IH]; simpl; intros Hd Hnew.
  - split; [|done]. by intros ?%Exists_nil.
  - destruct Hd as [Hfirst Hd]. rewrite Exists_cons in Hnew.
    split; [|apply IH; tauto].
    rewrite Exists_app, Exists_cons, Exists_nil.
    intros [?|[Hj|[]]]; [done|].
    apply Hnew. left. by apply (joins_edges e.1 e.2 e e').
Qed.

Lemma distinctEdges_filter (P : string * string → Prop)
    `{!∀ e, Decision (P e)} es :
  distinctEdges es → distinctEdges (filter P es).
Proof.
  induction es as [|e es IH]; simpl; [done|]. intros [Hfirst Hd].
  rewrite filter_cons. case_decide; [|by apply IH].
  split; [|by apply IH]. intros Hex. apply Hfirst.
  apply Exists_exists in Hex as (e' & [_ ?]%list_elem_of_filter & ?).
  apply Exists_exists. by exists e'.
Qed.

Lemma nodeIds_filter id (l : list (string * BuilderNode)) :
  nodeIds (filter (λ kv, kv.1 ≠ id) l) = filter (λ k, k ≠ id) (nodeIds l).
Proof.
  unfold nodeIds. induction l as [|kv l IH]; [done|].
  rewrite (filter_cons _ kv l).
  change ((kv :: l).*1) with (kv.1 :: l.*1).
  rewrite (filter_cons _ kv.1). simpl.
  case_decide; [simpl; f_equal; exact IH|exact IH].
Qed.

(** X21. A click on a node of the builder, in any mode, keeps the builder
    well formed: node keys stay unique, every edge joins two different
    existing nodes, no two edges join the same pair (in either order),
    and a pending link source is an existing node.  The empty builder is
    well formed. *)
Theorem onBuilderNodeClick_wellFormed mode id b :
  wellFormed emptyBuilder ∧
  (wellFormed b → id ∈ nodeIds (nodes b) →
   wellFormed (onBuilderNodeClick mode id b)).
Proof.
  split.
  { split_and!; simpl; [constructor|by intros ? ?%elem_of_nil|done|done]. }
  intros Hwf Hid. pose proof Hwf as (Hnd & Hedges & Hdist & Hlink).
  unfold onBuilderNodeClick.
  destruct (decide (mode = "link")) as [_|_];
    [|destruct (decide (mode = "delete")) as [_|_]].
  - destruct (linkSource b) as [a|] eqn:Hsrc.
    + destruct (decide (a = id)) as [_|Hne]; [exact Hwf|].
      split_and!; simpl; [done| | |done].
      * case_decide; [done|]. intros e [He|He]%elem_of_app; [by apply Hedges|].
        apply list_elem_of_singleton in He as ->. simpl.
        split_and!; [by apply Hlink|done|done].
      * case_decide; [done|]. by apply distinctEdges_snoc.
    + split_and!; simpl; [done|done|done|]. by intros a [= <-].
  - split_and!; simpl; [| | |done].
    + rewrite nodeIds_filter. by apply NoDup_filter.
    + intros e [[? ?] He]%list_elem_of_filter.
      destruct (Hedges e He) as (? & ? & ?).
      rewrite nodeIds_filter, !list_elem_of_filter. by split_and!.
    + by apply distinctEdges_filter.
  - by split_and!.
Qed.

(** X22. Linking two different nodes of the builder (a click on each in
    link mode, with no link pending before) makes each of them a
    neighbour of the other in the adjacency table of [runBuilderBFS], and
    leaves no link pending. *)
Theorem link_makes_neighbors a id b :
  linkSource b = None → a ≠ id →
  a ∈ nodeIds (nodes b) → id ∈ nodeIds (nodes b) →
  let b' := onBuilderNodeClick "link" id (onBuilderNodeClick "link" a b) in
  id ∈ neighborsOf (builderAdjacency b') a ∧
  a ∈ neighborsOf (builderAdjacency b') id ∧
  linkSource b' = None.
Proof.
  intros Hsrc Hne Ha Hid. unfold onBuilderNodeClick.
  rewrite !(decide_True (P := "link" = "link")) by done.
  rewrite Hsrc. simpl. rewrite decide_False by done.
  rewrite !builderAdjacency_neighbors. simpl.
  assert (Exists (joins a id)
            (if decide (Exists (joins a id) (edges b)) then edges b
             else edges b ++ [(a, id)])) as Hex.
  { case_decide; [done|]. apply Exists_app. right. constructor. by left. }
  split_and!; [done|done|done| |done].
  eapply Exists_impl; [exact Hex|]. intros e. by rewrite joins_swap.
Qed.

End BuilderFacts.

(** ** The audit log *)

Section AuditLogFacts.

Import AuditLog.

Context {Entry : Type}.

Lemma capLog_take fuel (log : list Entry) :
  length log - 50 ≤ fuel → capLog fuel log = take 50 log.
Proof.
  revert log. induction fuel as [|fuel IH]; intros log Hfuel; simpl.
  - by rewrite take_ge by lia.
  - case_decide as Hlong; [|by rewrite take_ge by lia].
    destruct (last log) as [x|] eqn:Hlast;
      [|apply last_None in Hlast; subst; simpl in Hlong; lia].
    apply last_Some in Hlast as [l' ->].
    rewrite removelast_last. rewrite length_app in Hlong, Hfuel.
    simpl in Hlong, Hfuel.
    rewrite IH by lia. by rewrite take_app_le by lia.
Qed.

(** X23. [logAudit] puts the new entry first and keeps the log at no
    more than 50 entries: the result is the new entry followed by the
    previous entries in order, cut after the fiftieth; further iterations
    of the trimming loop would change nothing. *)
Theorem logAudit_keeps_newest_fifty (entry : Entry) (log : list Entry) fuel :
  logAudit entry log = take 50 (entry :: log) ∧
  length (logAudit entry log) ≤ 50 ∧
  head (logAudit entry log) = Some entry ∧
  (length (entry :: log) ≤ fuel →
   capLog fuel (entry :: log) = logAudit entry log).
Proof.
  assert (logAudit entry log = take 50 (entry :: log)) as Heq
    by (apply capLog_take; lia).
  rewrite Heq. split_and!; [done| |done|].
  - rewrite length_take. lia.
  - intros Hfuel. apply capLog_take. lia.
Qed.

End AuditLogFacts.


(** ** The alternative routes panel, and presets and the start node *)

Section PanelFacts.

Context (NODES : gmap string Node).
Context (ADJACENCY : gmap string (list string)).
Context (EXITS : gset string).
Context (START_NODE : string).
Context (HAZARD_PRESETS : gmap string Preset).

Local Abbreviation perform :=
  (perform NODES ADJACENCY EXITS START_NODE HAZARD_PRESETS).
Local Abbreviation sessionState :=
  (sessionState NODES ADJACENCY EXITS START_NODE HAZARD_PRESETS).
Local Abbreviation alternativesShown :=
  (alternativesShown ADJACENCY EXITS START_NODE).
Local Abbreviation presetsAvoidStart :=
  (presetsAvoidStart START_NODE HAZARD_PRESETS).

(** X24. After [init] and any sequence of user actions, when a route is
    stored the panel lists at most two alternative routes; none of them
    is the stored route, they are pairwise different, and each is a
    viable route under the stored hazards with at least as many edges as
    the stored route. *)
Theorem session_alternatives_shown acts r :
  currentPath (sessionState acts) = Some r →
  length (alternativesShown (sessionState acts)) ≤ 2 ∧
  (r ∉ alternativesShown (sessionState acts)) ∧
  NoDup (alternativesShown (sessionState acts)) ∧
  ∀ p, p ∈ alternativesShown (sessionState acts) →
    viableRoute ADJACENCY EXITS START_NODE
      (hazardNodes (sessionState acts)) (hazardEdges (sessionState acts)) p ∧
    edgeCount r ≤ edgeCount p.
Proof.
  intros Hr. destruct (routeCached_session NODES ADJACENCY EXITS START_NODE
                         HAZARD_PRESETS acts) as [Hpath _].
  rewrite Hr in Hpath. symmetry in Hpath.
  unfold HazardManager.routeOf in Hpath.
  destruct (findAlternativePaths_found ADJACENCY EXITS START_NODE _ _ 3 r Hpath)
    as (more & Heq & Hlen & Hall & Hnd).
  unfold Panel.alternativesShown, alts. rewrite Heq. simpl. rewrite drop_0.
  apply NoDup_cons in Hnd as [Hnotin Hnd].
  split_and!; [lia|done|done|].
  intros p Hp. assert (p ∈ r :: more) as Hp' by by right.
  split; [by apply Hall|].
  destruct (Hall p Hp') as [Hvalid _].
  pose proof (bfsEvacuate_min_length _ _ _ _ _ _ r p Hpath Hvalid).
  unfold edgeCount. lia.
Qed.

Lemma perform_any_keeps_start_clear a st :
  presetsAvoidStart →
  START_NODE ∉ hazardNodes st → START_NODE ∉ hazardNodes (perform st a).
Proof.
  intros Hpresets Hs.
  destruct a as [nodeId|kind| |presetName]; simpl.
  - by apply toggleHazard_keeps_start_clear.
  - done.
  - set_solver.
  - unfold applyPreset.
    destruct (HAZARD_PRESETS !! presetName) as [preset|] eqn:Hp; [|done].
    simpl.
    destruct (presetEdges_effect (edges preset)
                (foldl presetNode
                   (resetAll NODES ADJACENCY EXITS START_NODE st)
                   (nodes preset))) as (-> & _).
    destruct (presetNodes_effect (nodes preset)
                (resetAll NODES ADJACENCY EXITS START_NODE st)) as (-> & _).
    simpl. specialize (Hpresets presetName preset Hp). simpl in Hpresets.
    set_solver.
Qed.

(** X25. If no preset lists the start node, then after [init] and any
    sequence of user actions, loading presets included, the start node
    is not blocked. *)
Theorem session_start_never_blocked acts :
  presetsAvoidStart → (START_NODE ∉ hazardNodes (sessionState acts)).
Proof.
  intros Hpresets. unfold Presenter.sessionState.
  assert (START_NODE ∉ hazardNodes
            (_recalculate NODES ADJACENCY EXITS START_NODE initialState))
    as Hinit by (simpl; set_solver).
  revert Hinit.
  generalize (_recalculate NODES ADJACENCY EXITS START_NODE initialState).
  induction acts as [|a acts IH]; intros st Hst; [done|].
  simpl. by apply IH, perform_any_keeps_start_clear.
Qed.

End PanelFacts.


(** ** The hazard operations on every identifier *)

Section JsFacts.

Context (NODES : gmap string Node).
Context (ADJACENCY : gmap string (list string)).
Context (EXITS : gset string).
Context (START_NODE : string).
Context (HAZARD_PRESETS : gmap string Preset).

Import Js.

Local Abbreviation _recalculate := (_recalculate NODES ADJACENCY EXITS START_NODE).
Local Abbreviation resetAll := (resetAll NODES ADJACENCY EXITS START_NODE).
Local Abbreviation applyHazard := (Js.applyHazard NODES ADJACENCY EXITS START_NODE).
Local Abbreviation removeHazard := (Js.removeHazard NODES ADJACENCY EXITS START_NODE).
Local Abbreviation toggleHazard := (Js.toggleHazard NODES ADJACENCY EXITS START_NODE).
Local Abbreviation applyPreset :=
  (Js.applyPreset NODES ADJACENCY EXITS START_NODE HAZARD_PRESETS).
Local Abbreviation runOperation :=
  (Js.runOperation NODES ADJACENCY EXITS START_NODE HAZARD_PRESETS).
Local Abbreviation avoidsProto := (Js.avoidsProto HAZARD_PRESETS).
Local Abbreviation routeOf := (routeOf NODES ADJACENCY EXITS START_NODE).
Local Abbreviation absentFromStore :=
  (absentFromStore NODES ADJACENCY EXITS START_NODE).

(** *** Reads and writes of [hazardTypes] *)

Lemma proto_is_protoName : "__proto__" ∈ protoNames.
Proof. apply (bool_decide_unpack _). vm_compute. exact I. Qed.

Lemma writeKind_other nodeId type types :
  nodeId ≠ "__proto__" → writeKind nodeId type types = <[nodeId := type]> types.
Proof. intros Hne. unfold writeKind. by rewrite decide_False. Qed.

Lemma writeKind_proto type types : writeKind "__proto__" type types = types.
Proof. unfold writeKind. by rewrite decide_True. Qed.

Lemma readsInherited_true nodeId types :
  readsInherited nodeId types = true ↔
  types !! nodeId = None ∧ nodeId ∈ protoNames.
Proof. unfold readsInherited. by rewrite bool_decide_eq_true. Qed.

Lemma readsInherited_ordinary nodeId types :
  nodeId ∉ protoNames → readsInherited nodeId types = false.
Proof.
  intros Hord. unfold readsInherited. apply bool_decide_eq_false. tauto.
Qed.

Lemma readsInherited_own nodeId types :
  is_Some (types !! nodeId) → readsInherited nodeId types = false.
Proof.
  intros [k Hk]. unfold readsInherited. apply bool_decide_eq_false.
  rewrite Hk. by intros [? _].
Qed.

(** *** Agreement with the operations on ordinary names *)

Lemma applyHazard_ordinary nodeId type st :
  nodeId ≠ "__proto__" →
  applyHazard nodeId type st =
    Returned (HazardManager.applyHazard NODES ADJACENCY EXITS START_NODE
                nodeId type st).
Proof.
  intros Hne. unfold Js.applyHazard, HazardManager.applyHazard. simpl.
  by rewrite writeKind_other.
Qed.

Lemma removeHazard_ordinary nodeId st :
  nodeId ∉ protoNames →
  removeHazard nodeId st =
    Returned (HazardManager.removeHazard NODES ADJACENCY EXITS START_NODE
                nodeId st).
Proof.
  intros Hord. unfold Js.removeHazard.
  by rewrite readsInherited_ordinary.
Qed.

Lemma presetNodes_ordinary ns st :
  Forall (λ n, n ∉ protoNames) ns →
  foldl Js.presetNode st ns = foldl HazardManager.presetNode st ns.
Proof.
  intros Hns. revert st. induction Hns as [|n ns Hn _ IH]; intros st; [done|].
  simpl. rewrite <- IH. f_equal.
  unfold Js.presetNode, HazardManager.presetNode. simpl.
  rewrite writeKind_other; [done|].
  intros ->. apply Hn, proto_is_protoName.
Qed.

(** On names that [Object.prototype] does not have, every operation
    returns, with the state that the operations of [HazardManager]
    give. *)
Lemma runOperation_ordinary op st :
  ordinaryOperation HAZARD_PRESETS op →
  runOperation op st =
    Returned (HazardManager.runOperation NODES ADJACENCY EXITS START_NODE
                HAZARD_PRESETS op st).
Proof.
  destruct op as [nodeId type|nodeId|nodeId| |presetName]; simpl; intros Hord.
  - apply applyHazard_ordinary. intros ->. apply Hord, proto_is_protoName.
  - by apply removeHazard_ordinary.
  - unfold Js.toggleHazard, HazardManager.toggleHazard.
    repeat case_decide; [done|by apply removeHazard_ordinary|].
    apply applyHazard_ordinary. intros ->. apply Hord, proto_is_protoName.
  - done.
  - unfold Js.applyPreset, HazardManager.applyPreset.
    destruct Hord as [Hname Hnodes].
    destruct (HAZARD_PRESETS !! presetName) as [preset|].
    + by rewrite presetNodes_ordinary.
    + by rewrite decide_False.
Qed.

(** *** The guard on the start node *)

(** C3 (amended). [applyHazard] itself has no check on the start node:
    for every [nodeId], the start included, it returns with [nodeId]
    added to [hazardNodes] and [hazardEdges] left alone, and for every
    [nodeId] other than [__proto__] the kind is recorded for it.  The
    rejection is done by its only caller, [toggleHazard]: for the start
    node it returns with the state unchanged, and it hands [nodeId] to
    [applyHazard] only when [nodeId] is not the start node. *)
Theorem applyHazard_guard_is_in_toggleHazard nodeId st :
  (∀ type,
     halted (applyHazard nodeId type st) = false ∧
     hazardNodes (stateOf (applyHazard nodeId type st))
       = {[nodeId]} ∪ hazardNodes st ∧
     hazardEdges (stateOf (applyHazard nodeId type st)) = hazardEdges st) ∧
  (nodeId ≠ "__proto__" → ∀ type,
     hazardStateOf (stateOf (applyHazard nodeId type st)) =
       ({[nodeId]} ∪ hazardNodes st, hazardEdges st,
        <[nodeId := type]> (hazardTypes st))) ∧
  (nodeId = START_NODE → toggleHazard nodeId st = Returned st) ∧
  (nodeId ≠ START_NODE → nodeId ∉ hazardNodes st →
   toggleHazard nodeId st = applyHazard nodeId (selectedHazard st) st).
Proof.
  split; [|split; [|split]].
  - by intros type.
  - intros Hne type. unfold hazardStateOf. simpl.
    by rewrite writeKind_other.
  - intros ->. unfold Js.toggleHazard. by rewrite decide_True.
  - intros Hne Hnot. unfold Js.toggleHazard. by rewrite !decide_False.
Qed.

(** *** The invariant [dom hazardTypes = hazardNodes] *)







(** *** Unknown identifiers *)




(** *** How the operations compose *)

(** X15. Toggling twice a node that is not the start and whose
    identifier is not a property name of [Object.prototype]: both calls
    return; if the node was not blocked, the hazard state is restored,
    provided the kinds matched the blocked nodes; if it was blocked, it
    is blocked again, now with the currently selected kind.  In both
    cases the stored route is the route of the original hazards. *)
Theorem toggleHazard_twice nodeId st :
  nodeId ≠ START_NODE → nodeId ∉ protoNames →
  halted (toggleHazard nodeId st) = false ∧
  halted (toggleHazard nodeId (stateOf (toggleHazard nodeId st))) = false ∧
  (nodeId ∉ hazardNodes st → kindsMatchNodes st →
   hazardStateOf (stateOf (toggleHazard nodeId
                             (stateOf (toggleHazard nodeId st))))
     = hazardStateOf st) ∧
  (nodeId ∈ hazardNodes st →
   hazardStateOf (stateOf (toggleHazard nodeId
                             (stateOf (toggleHazard nodeId st))))
     = (hazardNodes st, hazardEdges st,
        <[nodeId := selectedHazard st]> (hazardTypes st))) ∧
  currentPath (stateOf (toggleHazard nodeId
                          (stateOf (toggleHazard nodeId st))))
    = routeOf st.
Proof.
  intros Hne Hord.
  assert (nodeId ≠ "__proto__") as Hnp
    by (intros ->; apply Hord, proto_is_protoName).
  assert (∀ s, nodeId ∈ hazardNodes s →
            toggleHazard nodeId s =
              Returned (_recalculate
                (setHazardTypes (delete nodeId (hazardTypes s))
                   (setHazardNodes (hazardNodes s ∖ {[nodeId]}) s)))) as Hrem.
  { intros s Hs. unfold Js.toggleHazard, Js.removeHazard.
    rewrite decide_False, decide_True by done.
    by rewrite readsInherited_ordinary. }
  assert (∀ s, nodeId ∉ hazardNodes s →
            toggleHazard nodeId s =
              Returned (_recalculate
                (setHazardTypes (<[nodeId := selectedHazard s]> (hazardTypes s))
                   (setHazardNodes ({[nodeId]} ∪ hazardNodes s) s)))) as Happ.
  { intros s Hs. unfold Js.toggleHazard, Js.applyHazard.
    rewrite !decide_False by done. simpl. by rewrite writeKind_other. }
  destruct (decide (nodeId ∈ hazardNodes st)) as [Hin|Hout].
  - assert ({[nodeId]} ∪ hazardNodes st ∖ {[nodeId]} = hazardNodes st)
      as Hsame
      by (clear -Hin; apply set_eq; intros x;
          destruct (decide (x = nodeId)); set_solver).
    rewrite (Hrem st Hin). simpl.
    rewrite Happ by (simpl; clear; set_solver). simpl.
    split_and!; [done|done|done| |].
    + intros _. unfold hazardStateOf. simpl.
      rewrite insert_delete_eq. by rewrite Hsame.
    + unfold HazardManager.routeOf. simpl. by rewrite Hsame.
  - assert (({[nodeId]} ∪ hazardNodes st) ∖ {[nodeId]} = hazardNodes st)
      as Hsame
      by (clear -Hout; apply set_eq; intros x;
          destruct (decide (x = nodeId)); set_solver).
    rewrite (Happ st Hout). simpl.
    rewrite Hrem by (simpl; clear; set_solver). simpl.
    split_and!; [done|done| |done|].
    + intros _ Hinv. unfold hazardStateOf. simpl.
      rewrite delete_insert_eq, delete_id
        by (apply not_elem_of_dom; by rewrite Hinv).
      by rewrite Hsame.
    + unfold HazardManager.routeOf. simpl. by rewrite Hsame.
Qed.

(** X16. Applying a hazard to a node that is already blocked only
    overwrites its kind (for [__proto__] not even that: no kind is
    recorded for it): the call returns, and the blocked nodes, the
    blocked edges and the route stay as they were. *)
Theorem applyHazard_again nodeId type st :
  nodeId ∈ hazardNodes st →
  halted (applyHazard nodeId type st) = false ∧
  hazardStateOf (stateOf (applyHazard nodeId type st))
    = (hazardNodes st, hazardEdges st,
       if decide (nodeId = "__proto__") then hazardTypes st
       else <[nodeId := type]> (hazardTypes st)) ∧
  currentPath (stateOf (applyHazard nodeId type st)) = routeOf st.
Proof.
  intros Hin. unfold hazardStateOf, HazardManager.routeOf. simpl.
  assert ({[nodeId]} ∪ hazardNodes st = hazardNodes st) as -> by set_solver.
  done.
Qed.

(** X17. Removing the hazard of a node that is not blocked changes
    nothing in the hazard state, provided the kinds matched the blocked
    nodes.  If the identifier is not a property name of
    [Object.prototype] the call returns and the route is recomputed to
    the same route; if it is one, the call ends in a [TypeError] and the
    stored route is left as it was. *)
Theorem removeHazard_not_blocked nodeId st :
  nodeId ∉ hazardNodes st → kindsMatchNodes st →
  hazardStateOf (stateOf (removeHazard nodeId st)) = hazardStateOf st ∧
  (nodeId ∉ protoNames →
   halted (removeHazard nodeId st) = false ∧
   currentPath (stateOf (removeHazard nodeId st)) = routeOf st) ∧
  (nodeId ∈ protoNames →
   halted (removeHazard nodeId st) = true ∧
   currentPath (stateOf (removeHazard nodeId st)) = currentPath st).
Proof.
  intros Hout Hinv.
  assert (hazardTypes st !! nodeId = None) as Hnone
    by (apply not_elem_of_dom; by rewrite Hinv).
  assert (hazardNodes st ∖ {[nodeId]} = hazardNodes st) as Hsame
    by set_solver.
  unfold Js.removeHazard, hazardStateOf, HazardManager.routeOf.
  split_and!.
  - destruct (readsInherited _ _); simpl;
      by rewrite delete_id, Hsame by done.
  - intros Hord. rewrite readsInherited_ordinary by done. simpl.
    by rewrite Hsame.
  - intros Hproto.
    assert (readsInherited nodeId (hazardTypes st) = true) as ->
      by by apply readsInherited_true.
    done.
Qed.

(** *** Presets *)

Lemma jsPresetNodes_effect ns st :
  hazardNodes (foldl Js.presetNode st ns) = list_to_set ns ∪ hazardNodes st ∧
  hazardEdges (foldl Js.presetNode st ns) = hazardEdges st ∧
  selectedHazard (foldl Js.presetNode st ns) = selectedHazard st ∧
  ∀ n, hazardTypes (foldl Js.presetNode st ns) !! n =
         if decide (n ∈ ns ∧ n ≠ "__proto__") then Some "fire"
         else hazardTypes st !! n.
Proof.
  revert st. induction ns as [|a ns IH]; intros st.
  - split_and!; [set_solver|done|done|].
    intros n. case_decide as Hn; [|done]. by destruct Hn as [?%elem_of_nil _].
  - simpl. destruct (IH (Js.presetNode st a)) as (Hn & He & Hk & Ht).
    rewrite Hn, He, Hk. simpl. split_and!; [set_solver|done|done|].
    intros n. rewrite Ht. simpl. unfold writeKind.
    destruct (decide (a = "__proto__")) as [->|Ha].
    + repeat case_decide; try done; set_solver.
    + destruct (decide (n = a)) as [->|Hna].
      * rewrite lookup_insert_eq.
        rewrite (decide_True (P := a ∈ a :: ns ∧ a ≠ "__proto__"))
          by (split; [by left|done]).
        by case_decide.
      * rewrite lookup_insert_ne by done.
        repeat case_decide; try done; set_solver.
Qed.

(** X18. Loading a known preset returns and replaces the hazard state by
    exactly what the preset lists, whatever the hazards were before: the
    blocked nodes are the preset's nodes, each with kind [fire] (except
    [__proto__], for which no kind is recorded), the blocked edges are
    the keys of the preset's edges, the selected kind is kept, and the
    route is recomputed for them.  A name that is neither a preset nor a
    property name of [Object.prototype] leaves the whole state as it is;
    a name that is no preset but a property name of [Object.prototype]
    resets all hazards and then ends in a [TypeError]. *)
Theorem applyPreset_effect presetName st :
  match HAZARD_PRESETS !! presetName with
  | None =>
      applyPreset presetName st =
        if decide (presetName ∈ protoNames) then Threw (resetAll st)
        else Returned st
  | Some preset =>
      halted (applyPreset presetName st) = false ∧
      hazardNodes (stateOf (applyPreset presetName st))
        = list_to_set (nodes preset) ∧
      hazardEdges (stateOf (applyPreset presetName st)) =
        list_to_set ((λ e, edgeKey e.1 e.2) <$> edges preset) ∧
      (∀ n, hazardTypes (stateOf (applyPreset presetName st)) !! n =
              if decide (n ∈ nodes preset ∧ n ≠ "__proto__")
              then Some "fire" else None) ∧
      selectedHazard (stateOf (applyPreset presetName st))
        = selectedHazard st ∧
      currentPath (stateOf (applyPreset presetName st))
        = routeOf (stateOf (applyPreset presetName st))
  end.
Proof.
  unfold Js.applyPreset.
  destruct (HAZARD_PRESETS !! presetName) as [preset|]; [|done].
  destruct (presetEdges_effect (edges preset)
              (foldl Js.presetNode (resetAll st) (nodes preset)))
    as (Hn & He & Hk & Ht).
  destruct (jsPresetNodes_effect (nodes preset) (resetAll st))
    as (Hn' & He' & Hk' & Ht').
  split_and!; simpl.
  - done.
  - rewrite Hn, Hn'. simpl. set_solver.
  - rewrite He, He'. simpl. set_solver.
  - intros n. rewrite Ht, Ht'. simpl. by rewrite lookup_empty.
  - by rewrite Hk, Hk'.
  - reflexivity.
Qed.

End JsFacts.


(** ** Concrete instances *)

Module Instances.

Import Samples.

Local Abbreviation lineRoute := ["S"; "A"; "B"].

(** *** The scenarios of the specification *)

Example scenario_line :
  bfsEvacuate None lineAdj {["B"]} "S" ∅ ∅ = Some lineRoute.
Proof. vm_compute. reflexivity. Qed.

Example scenario_line_node_blocked :
  bfsEvacuate None lineAdj {["B"]} "S" {["A"]} ∅ = None.
Proof. vm_compute. reflexivity. Qed.

Example scenario_line_edge_blocked :
  bfsEvacuate None lineAdj {["B"]} "S" ∅ {[edgeKey "B" "A"]} = None.
Proof. vm_compute. reflexivity. Qed.

Example scenario_diamond :
  findAlternativePaths diamondAdj {["Exit"]} "S" ∅ ∅ 2
    = [["S"; "A"; "Exit"]; ["S"; "B"; "Exit"]].
Proof. vm_compute. reflexivity. Qed.

Example scenario_building :
  bfsEvacuate (Some Building.NODES) Building.ADJACENCY Building.EXITS
    Building.START_NODE ∅ ∅ = Some ["Control"; "Hall"; "ExitA"].
Proof. vm_compute. reflexivity. Qed.

Example scenario_building_alternatives :
  findAlternativePaths Building.ADJACENCY Building.EXITS
    Building.START_NODE ∅ ∅ 3 = [["Control"; "Hall"; "ExitA"]].
Proof. vm_compute. reflexivity. Qed.

(** *** The path finder on the building *)

Local Abbreviation viaExitB := ["Control"; "Hall"; "ExitB"].
Local Abbreviation viaBasement :=
  ["Control"; "Hall"; "StairG"; "StairB"; "Parking"; "EmergencyExit"].

Lemma bfsEvacuate_shortest_witness :
  bfsEvacuate (Some Building.NODES) Building.ADJACENCY Building.EXITS
    Building.START_NODE {["ExitA"]} ∅ = Some viaExitB ∧
  validRoute Building.ADJACENCY Building.EXITS Building.START_NODE
    {["ExitA"]} ∅ viaBasement ∧
  validRoute Building.ADJACENCY Building.EXITS Building.START_NODE
    {["ExitA"]} ∅ viaExitB ∧
  edgeCount viaExitB ≤ edgeCount viaBasement.
Proof.
  assert (bfsEvacuate (Some Building.NODES) Building.ADJACENCY Building.EXITS
            Building.START_NODE {["ExitA"]} ∅ = Some viaExitB) as Hrun
    by (vm_compute; reflexivity).
  assert (validRoute Building.ADJACENCY Building.EXITS Building.START_NODE
            {["ExitA"]} ∅ viaBasement) as Hq
    by (apply (bool_decide_unpack _); vm_compute; exact I).
  split; [exact Hrun|]. split; [exact Hq|].
  exact (bfsEvacuate_shortest _ _ _ _ _ _ _ _ Hrun Hq).
Defined.

Lemma bfsEvacuate_route_wellformed_witness :
  bfsEvacuate (Some Building.NODES) Building.ADJACENCY Building.EXITS
    Building.START_NODE {["ExitA"]} ∅ = Some viaExitB ∧
  head viaExitB = Some Building.START_NODE ∧
  (∃ e, last viaExitB = Some e ∧ e ∈ Building.EXITS) ∧
  NoDup viaExitB ∧
  (∀ i u v, viaExitB !! i = Some u → viaExitB !! S i = Some v →
     v ∈ neighborsOf Building.ADJACENCY u ∧ edgeKey u v ∉ (∅ : gset string)) ∧
  (∀ u, u ∈ viaExitB → u ∉ ({["ExitA"]} : gset string)).
Proof.
  assert (bfsEvacuate (Some Building.NODES) Building.ADJACENCY Building.EXITS
            Building.START_NODE {["ExitA"]} ∅ = Some viaExitB) as Hrun
    by (vm_compute; reflexivity).
  split; [exact Hrun|].
  exact (bfsEvacuate_route_wellformed _ _ _ _ _ _ _ Hrun).
Defined.

Lemma bfsEvacuate_blocked_start_witness :
  "Control" ∈ ({["Control"]} : gset string) ∧
  "Control" ∈ ({["Control"; "ExitA"]} : gset string) ∧
  bfsEvacuate (Some Building.NODES) Building.ADJACENCY
    {["Control"; "ExitA"]} "Control" {["Control"]} ∅ = None.
Proof.
  assert ("Control" ∈ ({["Control"]} : gset string)) as Hblocked
    by (apply (bool_decide_unpack _); vm_compute; exact I).
  split; [exact Hblocked|].
  split; [apply (bool_decide_unpack _); vm_compute; exact I|].
  exact (bfsEvacuate_blocked_start _ _ _ _ _ _ Hblocked).
Defined.

Lemma bfsEvacuate_start_is_exit_witness :
  "Control" ∈ ({["Control"; "ExitA"]} : gset string) ∧
  ("Control" ∉ ({["Hall"]} : gset string)) ∧
  bfsEvacuate (Some Building.NODES) Building.ADJACENCY
    {["Control"; "ExitA"]} "Control" {["Hall"]}
    {[edgeKey "Control" "Hall"]} = Some ["Control"].
Proof.
  assert ("Control" ∈ ({["Control"; "ExitA"]} : gset string)) as Hexit
    by (apply (bool_decide_unpack _); vm_compute; exact I).
  assert ("Control" ∉ ({["Hall"]} : gset string)) as Hfree
    by (apply (bool_decide_unpack _); vm_compute; exact I).
  split; [exact Hexit|]. split; [exact Hfree|].
  exact (bfsEvacuate_start_is_exit _ _ _ _ _ _ Hexit Hfree).
Defined.

(** *** Alternative routes *)

(** On the line [S - A - B] the only viable route is [S, A, B]. *)
Lemma line_unique_route q :
  viableRoute lineAdj {["B"]} "S" ∅ ∅ q → q = lineRoute.
Proof.
  intros [(Hh & _ & Ht & e & Hl & He) Hnd].
  apply elem_of_singleton in He. subst e.
  destruct q as [|a q]; [discriminate|]. injection Hh as ->.
  destruct q as [|b q]; [discriminate|].
  destruct Ht as [(Hb & _) Ht]. vm_compute in Hb.
  apply list_elem_of_singleton in Hb as ->.
  destruct q as [|c q]; [discriminate|].
  destruct Ht as [(Hc & _) Ht]. vm_compute in Hc.
  apply elem_of_cons in Hc as [->|Hc].
  { exfalso. apply NoDup_cons in Hnd as [Hnd _]. apply Hnd. set_solver. }
  apply list_elem_of_singleton in Hc as ->.
  destruct q as [|d q]; [done|].
  destruct Ht as [(Hd & _) Ht]. vm_compute in Hd.
  apply list_elem_of_singleton in Hd as ->.
  exfalso. apply NoDup_cons in Hnd as [_ Hnd].
  apply NoDup_cons in Hnd as [Hnd _]. apply Hnd. set_solver.
Qed.

Lemma findAlternativePaths_contract_witness :
  bfsEvacuate None lineAdj {["B"]} "S" ∅ ∅ = Some lineRoute ∧
  viableRoute lineAdj {["B"]} "S" ∅ ∅ lineRoute ∧
  (findAlternativePaths lineAdj {["B"]} "S" ∅ ∅ 3 = [] ↔
   bfsEvacuate None lineAdj {["B"]} "S" ∅ ∅ = None) ∧
  head (findAlternativePaths lineAdj {["B"]} "S" ∅ ∅ 3) = Some lineRoute ∧
  1 ≤ length (findAlternativePaths lineAdj {["B"]} "S" ∅ ∅ 3) ≤ 3 ∧
  findAlternativePaths lineAdj {["B"]} "S" ∅ ∅ 3 = [lineRoute].
Proof.
  assert (bfsEvacuate None lineAdj {["B"]} "S" ∅ ∅ = Some lineRoute) as Hrun
    by (vm_compute; reflexivity).
  assert (viableRoute lineAdj {["B"]} "S" ∅ ∅ lineRoute) as Hv
    by (apply (bool_decide_unpack _); vm_compute; exact I).
  destruct (findAlternativePaths_contract lineAdj {["B"]} "S" ∅ ∅ 3)
    as (Hempty & Hfound & Hone).
  destruct (Hfound lineRoute Hrun) as (Hhead & Hlen & _ & _).
  split; [exact Hrun|]. split; [exact Hv|]. split; [exact Hempty|].
  split; [exact Hhead|]. split; [exact Hlen|].
  exact (Hone lineRoute Hv line_unique_route).
Defined.

(** With [count = 0] the shortest route is still returned: one route,
    which is more than [count]. *)
Lemma findAlternativePaths_count_zero :
  bfsEvacuate None lineAdj {["B"]} "S" ∅ ∅ = Some lineRoute ∧
  findAlternativePaths lineAdj {["B"]} "S" ∅ ∅ 0 = [lineRoute] ∧
  ¬ (length (findAlternativePaths lineAdj {["B"]} "S" ∅ ∅ 0) ≤ 0).
Proof.
  split; [vm_compute; reflexivity|].
  assert (findAlternativePaths lineAdj {["B"]} "S" ∅ ∅ 0 = [lineRoute]) as ->
    by (vm_compute; reflexivity).
  split; [done|]. simpl. lia.
Qed.

(** *** The hazard manager on the building *)

Local Abbreviation toggleHazard :=
  (toggleHazard Building.NODES Building.ADJACENCY Building.EXITS
     Building.START_NODE).
Local Abbreviation applyHazard :=
  (applyHazard Building.NODES Building.ADJACENCY Building.EXITS
     Building.START_NODE).
Local Abbreviation perform :=
  (perform Building.NODES Building.ADJACENCY Building.EXITS
     Building.START_NODE Building.HAZARD_PRESETS).
Local Abbreviation runOperation :=
  (runOperation Building.NODES Building.ADJACENCY Building.EXITS
     Building.START_NODE Building.HAZARD_PRESETS).
Local Abbreviation routeOf :=
  (routeOf Building.NODES Building.ADJACENCY Building.EXITS
     Building.START_NODE).

(** Calling [applyHazard] directly on the start node does change the
    hazard state: the control room becomes a blocked node. *)
Lemma applyHazard_start_not_rejected :
  hazardStateOf (applyHazard Building.START_NODE "fire" initialState)
    ≠ hazardStateOf initialState.
Proof.
  intros Heq. apply (f_equal (λ hs, hs.1.1)) in Heq. simpl in Heq.
  set_solver.
Qed.

Lemma toggleHazard_start_unchanged_witness :
  forallb isToggleAction clicks = true ∧
  toggleHazard Building.START_NODE (foldl perform initialState clicks)
    = foldl perform initialState clicks ∧
  (Building.START_NODE ∉ hazardNodes (foldl perform initialState clicks)).
Proof.
  destruct (toggleHazard_start_unchanged Building.NODES Building.ADJACENCY
              Building.EXITS Building.START_NODE Building.HAZARD_PRESETS
              (foldl perform initialState clicks) clicks)
    as (Hsame & _ & Hclear).
  split; [reflexivity|]. split; [exact Hsame|]. exact (Hclear eq_refl).
Defined.

End Instances.

(** ** Further concrete instances *)

Module MoreInstances.

Import Samples MoreSamples.

Local Abbreviation viaExitB := ["Control"; "Hall"; "ExitB"].

Local Abbreviation searchBuilding :=
  (bfsEvacuate (Some Building.NODES) Building.ADJACENCY Building.EXITS
     Building.START_NODE).

Lemma bfsEvacuate_null_iff_no_route_witness :
  bfsEvacuate None lineAdj {["B"]} "S" {["A"]} ∅ = None ∧
  ∀ q, ¬ validRoute lineAdj {["B"]} "S" {["A"]} ∅ q.
Proof.
  assert (bfsEvacuate None lineAdj {["B"]} "S" {["A"]} ∅ = None) as Hnone
    by (vm_compute; reflexivity).
  split; [exact Hnone|].
  exact (proj1 (bfsEvacuate_null_iff_no_route lineAdj {["B"]} "S" {["A"]} ∅
                  None) Hnone).
Defined.

Lemma bfsEvacuate_only_last_is_exit_witness :
  searchBuilding {["ExitA"]} ∅ = Some viaExitB ∧
  viaExitB !! 2 = Some "ExitB" ∧
  "ExitB" ∈ Building.EXITS ∧
  3 = length viaExitB ∧ last viaExitB = Some "ExitB".
Proof.
  assert (searchBuilding {["ExitA"]} ∅ = Some viaExitB) as Hrun
    by (vm_compute; reflexivity).
  assert ("ExitB" ∈ Building.EXITS) as Hexit
    by (apply (bool_decide_unpack _); vm_compute; exact I).
  split; [exact Hrun|]. split; [reflexivity|]. split; [exact Hexit|].
  exact (bfsEvacuate_only_last_is_exit _ _ _ _ _ _ _ 2 "ExitB"
           Hrun eq_refl Hexit).
Defined.

Lemma bfsEvacuate_fewer_hazards_witness :
  (∅ : gset string) ⊆ {["ExitA"]} ∧
  (∅ : gset string) ⊆ {[edgeKey "Hall" "StairG"]} ∧
  searchBuilding {["ExitA"]} {[edgeKey "Hall" "StairG"]} = Some viaExitB ∧
  ∃ r, searchBuilding ∅ ∅ = Some r ∧ edgeCount r ≤ edgeCount viaExitB.
Proof.
  assert ((∅ : gset string) ⊆ {["ExitA"]}) as Hn
    by (apply (bool_decide_unpack _); vm_compute; exact I).
  assert ((∅ : gset string) ⊆ {[edgeKey "Hall" "StairG"]}) as He
    by (apply (bool_decide_unpack _); vm_compute; exact I).
  assert (searchBuilding {["ExitA"]} {[edgeKey "Hall" "StairG"]}
            = Some viaExitB) as Hrun by (vm_compute; reflexivity).
  split; [exact Hn|]. split; [exact He|]. split; [exact Hrun|].
  exact (bfsEvacuate_fewer_hazards _ _ _ _ _ _ _ _ _ Hn He Hrun).
Defined.

Lemma bfsEvacuate_all_exits_blocked_witness :
  Building.EXITS ⊆ ({["ExitA"; "ExitB"; "EmergencyExit"; "Hall"]} : gset string) ∧
  searchBuilding {["ExitA"; "ExitB"; "EmergencyExit"; "Hall"]} ∅ = None.
Proof.
  assert (Building.EXITS ⊆
            ({["ExitA"; "ExitB"; "EmergencyExit"; "Hall"]} : gset string))
    as Hsub by (apply (bool_decide_unpack _); vm_compute; exact I).
  split; [exact Hsub|].
  exact (bfsEvacuate_all_exits_blocked _ _ _ _ _ _ Hsub).
Defined.

Lemma bfsEvacuate_blocked_edge_both_ways_witness :
  edgeKey "ExitA" "Hall" ∈ ({[edgeKey "Hall" "ExitA"]} : gset string) ∧
  searchBuilding ∅ {[edgeKey "Hall" "ExitA"]} = Some viaExitB ∧
  viaExitB !! 1 = Some "Hall" ∧ viaExitB !! 2 = Some "ExitB" ∧
  ¬ ("Hall" = "ExitA" ∧ "ExitB" = "Hall") ∧
  ¬ ("Hall" = "Hall" ∧ "ExitB" = "ExitA").
Proof.
  assert (edgeKey "ExitA" "Hall" ∈ ({[edgeKey "Hall" "ExitA"]} : gset string))
    as Hkey by (apply (bool_decide_unpack _); vm_compute; exact I).
  assert (searchBuilding ∅ {[edgeKey "Hall" "ExitA"]} = Some viaExitB)
    as Hrun by (vm_compute; reflexivity).
  split; [exact Hkey|]. split; [exact Hrun|].
  split; [reflexivity|]. split; [reflexivity|].
  exact (bfsEvacuate_blocked_edge_both_ways _ _ _ _ _ _ _ "ExitA" "Hall"
           1 "Hall" "ExitB" Hkey Hrun eq_refl eq_refl).
Defined.

Lemma bfsEvacuate_reads_listed_only_witness :
  ("Control" ∈ ({["Roof"]} : gset string) ↔ "Control" ∈ (∅ : gset string)) ∧
  {["Roof"]} ∩ listedNodes Building.ADJACENCY
    = ∅ ∩ listedNodes Building.ADJACENCY ∧
  {[edgeKey "Roof" "Sky"]} ∩ listedEdgeKeys Building.ADJACENCY
    = ∅ ∩ listedEdgeKeys Building.ADJACENCY ∧
  searchBuilding {["Roof"]} {[edgeKey "Roof" "Sky"]} = searchBuilding ∅ ∅.
Proof.
  assert ("Control" ∈ ({["Roof"]} : gset string) ↔
          "Control" ∈ (∅ : gset string)) as Hs
    by (apply (bool_decide_unpack _); vm_compute; exact I).
  assert ({["Roof"]} ∩ listedNodes Building.ADJACENCY
            = ∅ ∩ listedNodes Building.ADJACENCY) as Hn
    by (apply (bool_decide_unpack _); vm_compute; exact I).
  assert ({[edgeKey "Roof" "Sky"]} ∩ listedEdgeKeys Building.ADJACENCY
            = ∅ ∩ listedEdgeKeys Building.ADJACENCY) as He
    by (apply (bool_decide_unpack _); vm_compute; exact I).
  split; [exact Hs|]. split; [exact Hn|]. split; [exact He|].
  exact (bfsEvacuate_reads_listed_only _ _ _ _ _ _ _ _ Hs Hn He).
Defined.

Lemma edgeKey_exact_witness :
  hasColon "Hall" = false ∧ hasColon "ExitA" = false ∧
  edgeKey "Hall" "ExitA" = edgeKey "ExitA" "Hall" ∧
  (("Hall" = "ExitA" ∧ "ExitA" = "Hall") ∨
   ("Hall" = "Hall" ∧ "ExitA" = "ExitA")).
Proof.
  split; [reflexivity|]. split; [reflexivity|]. split; [reflexivity|].
  exact (edgeKey_exact "Hall" "ExitA" "ExitA" "Hall"
           eq_refl eq_refl eq_refl eq_refl eq_refl).
Defined.

(** *** Alternative routes *)

Local Abbreviation short := ["S"; "A"; "E"].
Local Abbreviation long := ["S"; "B"; "C"; "E"].
Local Abbreviation alternatives :=
  (findAlternativePaths detourAdj {["E"]} "S" ∅ ∅).

Example scenario_detour : alternatives 3 = [short; long].
Proof. vm_compute. reflexivity. Qed.

Lemma findAlternativePaths_avoids_previous_witness :
  alternatives 3 !! 0 = Some short ∧ alternatives 3 !! 1 = Some long ∧
  avoidsInteriorOf short long.
Proof.
  assert (alternatives 3 !! 0 = Some short) as H0 by (vm_compute; reflexivity).
  assert (alternatives 3 !! 1 = Some long) as H1 by (vm_compute; reflexivity).
  split; [exact H0|]. split; [exact H1|].
  exact (findAlternativePaths_avoids_previous _ _ _ _ _ 3 0 short long H0 H1).
Defined.

Lemma findAlternativePaths_first_is_shortest_witness :
  bfsEvacuate None detourAdj {["E"]} "S" ∅ ∅ = Some short ∧
  long ∈ alternatives 3 ∧
  edgeCount short ≤ edgeCount long.
Proof.
  assert (bfsEvacuate None detourAdj {["E"]} "S" ∅ ∅ = Some short) as Hr
    by (vm_compute; reflexivity).
  assert (long ∈ alternatives 3) as Hin
    by (apply (bool_decide_unpack _); vm_compute; exact I).
  split; [exact Hr|]. split; [exact Hin|].
  exact (findAlternativePaths_first_is_shortest _ _ _ _ _ 3 short long Hr Hin).
Defined.

Lemma findAlternativePaths_prefix_witness :
  1 ≤ 3 ∧ alternatives 1 `prefix_of` alternatives 3.
Proof.
  assert (1 ≤ 3) as Hle by lia.
  split; [exact Hle|].
  exact (findAlternativePaths_prefix detourAdj {["E"]} "S" ∅ ∅ 1 3 Hle).
Defined.

Lemma findAlternativePaths_direct_route_witness :
  bfsEvacuate None Building.ADJACENCY Building.EXITS "Hall" ∅ ∅
    = Some ["Hall"; "ExitA"] ∧
  length ["Hall"; "ExitA"] ≤ 2 ∧
  findAlternativePaths Building.ADJACENCY Building.EXITS "Hall" ∅ ∅ 3
    = [["Hall"; "ExitA"]].
Proof.
  assert (bfsEvacuate None Building.ADJACENCY Building.EXITS "Hall" ∅ ∅
            = Some ["Hall"; "ExitA"]) as Hr by (vm_compute; reflexivity).
  assert (length ["Hall"; "ExitA"] ≤ 2) as Hlen by (simpl; lia).
  split; [exact Hr|]. split; [exact Hlen|].
  exact (findAlternativePaths_direct_route _ _ _ _ _ 3 _ Hr Hlen).
Defined.

(** *** The hazard manager and the page on the building *)

Local Abbreviation toggleHazard :=
  (toggleHazard Building.NODES Building.ADJACENCY Building.EXITS
     Building.START_NODE).
Local Abbreviation applyHazard :=
  (applyHazard Building.NODES Building.ADJACENCY Building.EXITS
     Building.START_NODE).
Local Abbreviation removeHazard :=
  (removeHazard Building.NODES Building.ADJACENCY Building.EXITS
     Building.START_NODE).
Local Abbreviation applyPreset :=
  (applyPreset Building.NODES Building.ADJACENCY Building.EXITS
     Building.START_NODE Building.HAZARD_PRESETS).
Local Abbreviation routeOf :=
  (routeOf Building.NODES Building.ADJACENCY Building.EXITS
     Building.START_NODE).
Local Abbreviation session :=
  (sessionState Building.NODES Building.ADJACENCY Building.EXITS
     Building.START_NODE Building.HAZARD_PRESETS clicks).
Local Abbreviation lockdown :=
  (sessionState Building.NODES Building.ADJACENCY Building.EXITS
     Building.START_NODE Building.HAZARD_PRESETS
     [LoadPreset "Full Lockdown"]).
Local Abbreviation viaExitA := ["Control"; "Hall"; "ExitA"].

Lemma session_route_is_current_witness :
  evacuationFailed lockdown = true ∧
  currentPath lockdown = routeOf lockdown ∧
  ∀ q, ¬ validRoute Building.ADJACENCY Building.EXITS Building.START_NODE
           (hazardNodes lockdown) (hazardEdges lockdown) q.
Proof.
  assert (evacuationFailed lockdown = true) as Hfailed
    by (vm_compute; reflexivity).
  destruct (session_route_is_current Building.NODES Building.ADJACENCY
              Building.EXITS Building.START_NODE Building.HAZARD_PRESETS
              [LoadPreset "Full Lockdown"]) as [Hpath Hiff].
  split; [exact Hfailed|]. split; [exact Hpath|].
  exact (proj1 Hiff Hfailed).
Defined.

Lemma session_status_bar_witness :
  currentPath session = Some viaExitA ∧
  (routeStatus Building.NODES session).1 ≠ "CLEAR" ∧
  ∃ e, last viaExitA = Some e ∧ e ∈ Building.EXITS ∧
       routeStatus Building.NODES session =
         ("EVACUATE → " +:+ displayLabel Building.NODES e, "safe").
Proof.
  assert (currentPath session = Some viaExitA) as Hr
    by (vm_compute; reflexivity).
  destruct (session_status_bar Building.NODES Building.ADJACENCY
              Building.EXITS Building.START_NODE Building.HAZARD_PRESETS
              clicks) as (Hclear & _ & Hroute).
  split; [exact Hr|]. split; [exact Hclear|]. exact (Hroute viaExitA Hr).
Defined.

Lemma session_route_node_status_witness :
  currentPath session = Some viaExitA ∧
  viaExitA !! 1 = Some "Hall" ∧
  getNodeStatus Building.EXITS Building.START_NODE "Hall" session = "path".
Proof.
  assert (currentPath session = Some viaExitA) as Hr
    by (vm_compute; reflexivity).
  split; [exact Hr|]. split; [reflexivity|].
  exact (session_route_node_status Building.NODES Building.ADJACENCY
           Building.EXITS Building.START_NODE Building.HAZARD_PRESETS
           clicks viaExitA 1 "Hall" Hr eq_refl).
Defined.

(** *** The builder *)

Lemma sampleBuilder_wellFormed : Builder.wellFormed sampleBuilder.
Proof.
  split; [|split; [|split]].
  - apply (bool_decide_unpack _). vm_compute. exact I.
  - apply Forall_forall. apply (bool_decide_unpack _). vm_compute. exact I.
  - simpl. split; [|split; [|done]];
      apply (bool_decide_unpack _); vm_compute; exact I.
  - intros a [=].
Qed.

Lemma builderAdjacency_is_undirected_witness :
  "B_Hall_2" ∈ Builder.nodeIds (Builder.nodes sampleBuilder) ∧
  "B_Exit_3" ∈ Builder.nodeIds (Builder.nodes sampleBuilder) ∧
  ("B_Exit_3", "B_Hall_2") ∈ Builder.edges sampleBuilder ∧
  "B_Exit_3" ∈ neighborsOf (Builder.builderAdjacency sampleBuilder) "B_Hall_2" ∧
  "B_Hall_2" ∈ neighborsOf (Builder.builderAdjacency sampleBuilder) "B_Exit_3".
Proof.
  assert ("B_Hall_2" ∈ Builder.nodeIds (Builder.nodes sampleBuilder)) as Hu
    by (apply (bool_decide_unpack _); vm_compute; exact I).
  assert ("B_Exit_3" ∈ Builder.nodeIds (Builder.nodes sampleBuilder)) as Hv
    by (apply (bool_decide_unpack _); vm_compute; exact I).
  assert (("B_Exit_3", "B_Hall_2") ∈ Builder.edges sampleBuilder) as He
    by (apply (bool_decide_unpack _); vm_compute; exact I).
  destruct (builderAdjacency_is_undirected sampleBuilder
              "B_Hall_2" "B_Exit_3") as [Hlisted Hsym].
  assert ("B_Exit_3"
            ∈ neighborsOf (Builder.builderAdjacency sampleBuilder) "B_Hall_2")
    as Hn by exact (proj2 Hlisted (conj Hu (or_intror He))).
  split; [exact Hu|]. split; [exact Hv|]. split; [exact He|].
  split; [exact Hn|]. exact (proj1 (Hsym Hu Hv) Hn).
Defined.

Local Abbreviation builderRoute := ["B_Control_1"; "B_Hall_2"; "B_Exit_3"].

Lemma runBuilderBFS_path_witness :
  Builder.runBuilderBFS sampleBuilder = Builder.PathOk builderRoute ∧
  head builderRoute = head (Builder.starts sampleBuilder) ∧
  (∃ e, last builderRoute = Some e ∧ e ∈ Builder.exits sampleBuilder) ∧
  NoDup builderRoute ∧
  ∀ i u v, builderRoute !! i = Some u → builderRoute !! S i = Some v →
    (u, v) ∈ Builder.edges sampleBuilder ∨
    (v, u) ∈ Builder.edges sampleBuilder.
Proof.
  assert (Builder.runBuilderBFS sampleBuilder = Builder.PathOk builderRoute)
    as Hrun by (vm_compute; reflexivity).
  split; [exact Hrun|].
  exact (runBuilderBFS_path sampleBuilder builderRoute Hrun).
Defined.

Lemma onBuilderNodeClick_wellFormed_witness :
  Builder.wellFormed sampleBuilder ∧
  "B_Hall_2" ∈ Builder.nodeIds (Builder.nodes sampleBuilder) ∧
  Builder.wellFormed (Builder.onBuilderNodeClick "delete" "B_Hall_2"
                        sampleBuilder).
Proof.
  assert ("B_Hall_2" ∈ Builder.nodeIds (Builder.nodes sampleBuilder)) as Hid
    by (apply (bool_decide_unpack _); vm_compute; exact I).
  split; [exact sampleBuilder_wellFormed|]. split; [exact Hid|].
  exact (proj2 (onBuilderNodeClick_wellFormed "delete" "B_Hall_2"
                  sampleBuilder) sampleBuilder_wellFormed Hid).
Defined.

Lemma link_makes_neighbors_witness :
  Builder.linkSource sampleBuilder = None ∧
  "B_Store_4" ≠ "B_Hall_2" ∧
  "B_Store_4" ∈ Builder.nodeIds (Builder.nodes sampleBuilder) ∧
  "B_Hall_2" ∈ Builder.nodeIds (Builder.nodes sampleBuilder) ∧
  "B_Hall_2" ∈ neighborsOf
    (Builder.builderAdjacency
       (Builder.onBuilderNodeClick "link" "B_Hall_2"
          (Builder.onBuilderNodeClick "link" "B_Store_4" sampleBuilder)))
    "B_Store_4".
Proof.
  assert ("B_Store_4" ≠ "B_Hall_2") as Hne
    by (apply (bool_decide_unpack _); vm_compute; exact I).
  assert ("B_Store_4" ∈ Builder.nodeIds (Builder.nodes sampleBuilder)) as Ha
    by (apply (bool_decide_unpack _); vm_compute; exact I).
  assert ("B_Hall_2" ∈ Builder.nodeIds (Builder.nodes sampleBuilder)) as Hid
    by (apply (bool_decide_unpack _); vm_compute; exact I).
  split; [reflexivity|]. split; [exact Hne|]. split; [exact Ha|].
  split; [exact Hid|].
  exact (proj1 (link_makes_neighbors "B_Store_4" "B_Hall_2" sampleBuilder
                  eq_refl Hne Ha Hid)).
Defined.

(** *** The audit log *)

Lemma logAudit_keeps_newest_fifty_witness :
  length (99 :: seq 0 60) ≤ 100 ∧
  AuditLog.logAudit 99 (seq 0 60) = take 50 (99 :: seq 0 60) ∧
  AuditLog.capLog 100 (99 :: seq 0 60) = AuditLog.logAudit 99 (seq 0 60).
Proof.
  assert (length (99 :: seq 0 60) ≤ 100) as Hfuel by (simpl; lia).
  destruct (logAudit_keeps_newest_fifty 99 (seq 0 60) 100)
    as (Heq & _ & _ & Hstable).
  split; [exact Hfuel|]. split; [exact Heq|]. exact (Hstable Hfuel).
Defined.


(** *** The panel and the presets *)

Local Abbreviation detourSession :=
  (sessionState Building.NODES detourAdj {["E"]} "S" ∅ []).

Lemma session_alternatives_shown_witness :
  currentPath detourSession = Some ["S"; "A"; "E"] ∧
  alternativesShown detourAdj {["E"]} "S" detourSession
    = [["S"; "B"; "C"; "E"]] ∧
  length (alternativesShown detourAdj {["E"]} "S" detourSession) ≤ 2 ∧
  ["S"; "A"; "E"] ∉ alternativesShown detourAdj {["E"]} "S" detourSession.
Proof.
  assert (currentPath detourSession = Some ["S"; "A"; "E"]) as Hr
    by (vm_compute; reflexivity).
  destruct (session_alternatives_shown Building.NODES detourAdj {["E"]} "S"
              ∅ [] ["S"; "A"; "E"] Hr) as (Hlen & Hnot & _).
  split; [exact Hr|]. split; [vm_compute; reflexivity|].
  split; [exact Hlen|exact Hnot].
Defined.

Local Abbreviation presetClicks :=
  [LoadPreset "Ground Floor Fire"; Toggle "Control"; LoadPreset "Smoke on F2";
   Toggle "Hall"].

Lemma session_start_never_blocked_witness :
  presetsAvoidStart Building.START_NODE Building.HAZARD_PRESETS ∧
  (Building.START_NODE ∉
   hazardNodes
     (sessionState Building.NODES Building.ADJACENCY Building.EXITS
        Building.START_NODE Building.HAZARD_PRESETS presetClicks)).
Proof.
  assert (presetsAvoidStart Building.START_NODE Building.HAZARD_PRESETS)
    as Hpresets by (apply (bool_decide_unpack _); vm_compute; exact I).
  split; [exact Hpresets|].
  exact (session_start_never_blocked Building.NODES Building.ADJACENCY
           Building.EXITS Building.START_NODE Building.HAZARD_PRESETS
           presetClicks Hpresets).
Defined.


End MoreInstances.

(** ** Instances of the hazard operations on every identifier *)

Module JsInstances.

Import Js.

Local Abbreviation applyHazard :=
  (Js.applyHazard Building.NODES Building.ADJACENCY Building.EXITS
     Building.START_NODE).
Local Abbreviation removeHazard :=
  (Js.removeHazard Building.NODES Building.ADJACENCY Building.EXITS
     Building.START_NODE).
Local Abbreviation toggleHazard :=
  (Js.toggleHazard Building.NODES Building.ADJACENCY Building.EXITS
     Building.START_NODE).
Local Abbreviation applyPreset :=
  (Js.applyPreset Building.NODES Building.ADJACENCY Building.EXITS
     Building.START_NODE Building.HAZARD_PRESETS).
Local Abbreviation runOperation :=
  (Js.runOperation Building.NODES Building.ADJACENCY Building.EXITS
     Building.START_NODE Building.HAZARD_PRESETS).
Local Abbreviation avoidsProto := (Js.avoidsProto Building.HAZARD_PRESETS).
Local Abbreviation routeOf :=
  (routeOf Building.NODES Building.ADJACENCY Building.EXITS
     Building.START_NODE).
Local Abbreviation absentFromStore :=
  (absentFromStore Building.NODES Building.ADJACENCY Building.EXITS
     Building.START_NODE).

(** The main hall blocked by smoke, nothing else. *)
Local Abbreviation hallBlocked :=
  (stateOf (applyHazard "Hall" "smoke" initialState)).

(** *** The guard on the start node *)

Lemma applyHazard_guard_is_in_toggleHazard_witness :
  Building.START_NODE ≠ "__proto__" ∧
  hazardStateOf (stateOf (applyHazard Building.START_NODE "fire" initialState))
    = ({[Building.START_NODE]} ∪ hazardNodes initialState,
       hazardEdges initialState,
       <[Building.START_NODE := "fire"]> (hazardTypes initialState)) ∧
  toggleHazard Building.START_NODE initialState = Returned initialState ∧
  "Hall" ≠ Building.START_NODE ∧
  ("Hall" ∉ hazardNodes initialState) ∧
  toggleHazard "Hall" initialState
    = applyHazard "Hall" (selectedHazard initialState) initialState.
Proof.
  assert (Building.START_NODE ≠ "__proto__") as Hord
    by (apply (bool_decide_unpack _); vm_compute; exact I).
  assert ("Hall" ≠ Building.START_NODE) as Hne
    by (apply (bool_decide_unpack _); vm_compute; exact I).
  assert ("Hall" ∉ hazardNodes initialState) as Hfree
    by (apply (bool_decide_unpack _); vm_compute; exact I).
  destruct (applyHazard_guard_is_in_toggleHazard Building.NODES
              Building.ADJACENCY Building.EXITS Building.START_NODE
              Building.START_NODE initialState) as (_ & Hrecorded & Hstart & _).
  destruct (applyHazard_guard_is_in_toggleHazard Building.NODES
              Building.ADJACENCY Building.EXITS Building.START_NODE
              "Hall" initialState) as (_ & _ & _ & Hother).
  split; [exact Hord|]. split; [exact (Hrecorded Hord "fire")|].
  split; [exact (Hstart eq_refl)|].
  split; [exact Hne|]. split; [exact Hfree|]. exact (Hother Hne Hfree).
Defined.

(** *** The invariant [dom hazardTypes = hazardNodes] *)



(** *** Unknown identifiers *)



(** *** How the operations compose *)

Lemma toggleHazard_twice_witness :
  "Hall" ≠ Building.START_NODE ∧
  ("Hall" ∉ protoNames) ∧
  ("Hall" ∉ hazardNodes initialState) ∧
  kindsMatchNodes initialState ∧
  halted (toggleHazard "Hall" initialState) = false ∧
  halted (toggleHazard "Hall" (stateOf (toggleHazard "Hall" initialState)))
    = false ∧
  hazardStateOf
    (stateOf (toggleHazard "Hall" (stateOf (toggleHazard "Hall" initialState))))
    = hazardStateOf initialState ∧
  currentPath
    (stateOf (toggleHazard "Hall" (stateOf (toggleHazard "Hall" initialState))))
    = routeOf initialState.
Proof.
  assert ("Hall" ≠ Building.START_NODE) as Hne
    by (apply (bool_decide_unpack _); vm_compute; exact I).
  assert ("Hall" ∉ protoNames) as Hord
    by (apply (bool_decide_unpack _); vm_compute; exact I).
  assert ("Hall" ∉ hazardNodes initialState) as Hout
    by (apply (bool_decide_unpack _); vm_compute; exact I).
  assert (kindsMatchNodes initialState) as Hinv
    by (apply (bool_decide_unpack _); vm_compute; exact I).
  destruct (toggleHazard_twice Building.NODES Building.ADJACENCY
              Building.EXITS Building.START_NODE "Hall" initialState Hne Hord)
    as (Hfirst & Hsecond & Hrestore & _ & Hroute).
  split; [exact Hne|]. split; [exact Hord|]. split; [exact Hout|].
  split; [exact Hinv|]. split; [exact Hfirst|]. split; [exact Hsecond|].
  split; [exact (Hrestore Hout Hinv)|exact Hroute].
Defined.

Lemma applyHazard_again_witness :
  "Hall" ∈ hazardNodes hallBlocked ∧
  halted (applyHazard "Hall" "fire" hallBlocked) = false ∧
  hazardStateOf (stateOf (applyHazard "Hall" "fire" hallBlocked))
    = (hazardNodes hallBlocked, hazardEdges hallBlocked,
       if decide ("Hall" = "__proto__") then hazardTypes hallBlocked
       else <["Hall" := "fire"]> (hazardTypes hallBlocked)) ∧
  currentPath (stateOf (applyHazard "Hall" "fire" hallBlocked))
    = routeOf hallBlocked.
Proof.
  assert ("Hall" ∈ hazardNodes hallBlocked) as Hin
    by (apply (bool_decide_unpack _); vm_compute; exact I).
  split; [exact Hin|].
  exact (applyHazard_again Building.NODES Building.ADJACENCY Building.EXITS
           Building.START_NODE "Hall" "fire" hallBlocked Hin).
Defined.

Lemma removeHazard_not_blocked_witness :
  ("Reception" ∉ hazardNodes hallBlocked) ∧
  kindsMatchNodes hallBlocked ∧
  ("Reception" ∉ protoNames) ∧
  hazardStateOf (stateOf (removeHazard "Reception" hallBlocked))
    = hazardStateOf hallBlocked ∧
  halted (removeHazard "Reception" hallBlocked) = false ∧
  currentPath (stateOf (removeHazard "Reception" hallBlocked))
    = routeOf hallBlocked.
Proof.
  assert ("Reception" ∉ hazardNodes hallBlocked) as Hout
    by (apply (bool_decide_unpack _); vm_compute; exact I).
  assert (kindsMatchNodes hallBlocked) as Hinv
    by (apply (bool_decide_unpack _); vm_compute; exact I).
  assert ("Reception" ∉ protoNames) as Hord
    by (apply (bool_decide_unpack _); vm_compute; exact I).
  destruct (removeHazard_not_blocked Building.NODES Building.ADJACENCY
              Building.EXITS Building.START_NODE "Reception" hallBlocked
              Hout Hinv) as (Hsame & Hreturns & _).
  split; [exact Hout|]. split; [exact Hinv|]. split; [exact Hord|].
  split; [exact Hsame|]. exact (Hreturns Hord).
Defined.

(** *** Presets *)

Lemma applyPreset_effect_witness :
  Building.HAZARD_PRESETS !! "Stairwell Fire"
    = Some (mkPreset ["StairG"; "Stair1"] []
              "Stairwells G and 1 on fire — upper floors isolated") ∧
  halted (applyPreset "Stairwell Fire" hallBlocked) = false ∧
  hazardNodes (stateOf (applyPreset "Stairwell Fire" hallBlocked))
    = list_to_set ["StairG"; "Stair1"].
Proof.
  assert (Building.HAZARD_PRESETS !! "Stairwell Fire"
            = Some (mkPreset ["StairG"; "Stair1"] []
                      "Stairwells G and 1 on fire — upper floors isolated"))
    as Hpreset by (vm_compute; reflexivity).
  split; [exact Hpreset|].
  pose proof (applyPreset_effect Building.NODES Building.ADJACENCY
                Building.EXITS Building.START_NODE Building.HAZARD_PRESETS
                "Stairwell Fire" hallBlocked) as Heffect.
  rewrite Hpreset in Heffect.
  split; [exact (proj1 Heffect)|exact (proj1 (proj2 Heffect))].
Defined.

End JsInstances.
